(** * clrjit_inscount: a Pin tool counting the instructions executed in the JIT

    Shallow embedding of [src/jit-pintool/clrjit_inscount.cpp].  The tool is
    a set of callbacks driven by the instrumentation host; every callback
    runs to completion, so each one is a function on the tool's globals.
    The conditional compilation of the source ([TARGET_IA32], [TARGET_WINDOWS],
    ...) is an explicit parameter of the functions it affects. *)

From Stdlib Require Import ZArith List Bool Arith Lia Permutation.
From Stdlib Require Import Ascii String DecimalString DecimalPos DecimalN.
Import ListNotations.

Local Open Scope Z_scope.

(** ** Machine integers *)

(** [ADDRINT] is the pointer-sized unsigned integer of the target, [UINT64]
    and [UINT32] the fixed-width ones; unsigned arithmetic wraps. *)

Definition UINT32_modulus : Z := 2 ^ 32.
Definition UINT64_modulus : Z := 2 ^ 64.

Definition to_UINT32 (x : Z) : Z := x mod UINT32_modulus.
Definition to_UINT64 (x : Z) : Z := x mod UINT64_modulus.

Definition is_UINT32 (x : Z) : Prop := 0 <= x < UINT32_modulus.
Definition is_UINT64 (x : Z) : Prop := 0 <= x < UINT64_modulus.

(** The two architectures of the [#ifdef TARGET_IA32 ... #else ... #endif]
    blocks: [ADDRINT] has 32 bits on the first and 64 on the second. *)
Inductive Target : Type :=
| TARGET_IA32
| TARGET_IA32E.

(** ** Analysis routines *)

Module IA32.

(** [ADDRINT] is 32 bits wide here. *)

Definition DoCountLow (countLow numInsts : Z) : Z :=
  to_UINT32 (countLow + numInsts).

(** The comparison is returned as an [ADDRINT]: 1 or 0. *)
Definition OverflowedLow (countLow numInsts : Z) : Z :=
  if countLow <? numInsts then 1 else 0.

Definition DoCountHigh (countHigh : Z) : Z :=
  to_UINT32 (countHigh + 1).

(** [*result = ((UINT64)countHigh << 32) | countLow] *)
Definition ReadInsCount (countLow countHigh : Z) : Z :=
  Z.lor (to_UINT64 (Z.shiftl countHigh 32)) countLow.

(** The three calls [Trace] inserts before a block of [numInsts]
    instructions, run on the two tool registers: [DoCountLow] writes the
    low register, and the then-call [DoCountHigh] runs when the if-call
    [OverflowedLow], which reads the updated low register, returns
    non-zero.  In the words of the source: [countLow += insCount;
    if (countLow < insCount) countHigh++;]. *)
Definition count_block (regs : Z * Z) (numInsts : Z) : Z * Z :=
  let '(countLow, countHigh) := regs in
  let countLow := DoCountLow countLow numInsts in
  if OverflowedLow countLow numInsts =? 0
  then (countLow, countHigh)
  else (countLow, DoCountHigh countHigh).

End IA32.

Module IA32E.

(** [ADDRINT] is 64 bits wide here. *)

Definition DoCount (count numInsts : Z) : Z :=
  to_UINT64 (count + numInsts).

Definition ReadInsCount (count : Z) : Z := count.

End IA32E.

(** ** [std::string] *)

(** A [std::string] is its sequence of characters; [npos] is [None]. *)
Definition std_string : Type := list ascii.

Definition lit (s : string) : std_string := list_ascii_of_string s.

(** [s] begins with the characters of [pat]. *)
Fixpoint starts_with (pat s : std_string) : bool :=
  match pat, s with
  | [], _ => true
  | _ :: _, [] => false
  | p :: pat', c :: s' => Ascii.eqb p c && starts_with pat' s'
  end.

(** Lowest position of [s] at which [pat] starts. *)
Fixpoint find_first (pat s : std_string) : option nat :=
  if starts_with pat s then Some 0%nat
  else match s with
       | [] => None
       | _ :: s' => option_map S (find_first pat s')
       end.

(** Highest position of [s] at which [pat] starts. *)
Fixpoint find_last (pat s : std_string) : option nat :=
  match s with
  | [] => if starts_with pat [] then Some 0%nat else None
  | _ :: s' =>
      match find_last pat s' with
      | Some i => Some (S i)
      | None => if starts_with pat s then Some 0%nat else None
      end
  end.

(** [s.find(pat, pos)]: the lowest position at or after [pos] where [pat]
    occurs; a [pos] beyond the end finds nothing. *)
Definition find (s pat : std_string) (pos : nat) : option nat :=
  if (pos <=? List.length s)%nat
  then option_map (Nat.add pos) (find_first pat (skipn pos s))
  else None.

(** [s.rfind(pat)]: the highest position where [pat] occurs. *)
Definition rfind (s pat : std_string) : option nat := find_last pat s.

(** [operator<<] of an unsigned integer: its decimal numeral. *)
Definition decimal (n : Z) : std_string :=
  lit (NilZero.string_of_uint (N.to_uint (Z.to_N n))).

Definition endl : std_string := ["010"%char].

(** ** The JIT image heuristic *)

Inductive Platform : Type :=
| TARGET_WINDOWS
| TARGET_LINUX
| TARGET_MAC.

Definition pathSep (os : Platform) : std_string :=
  match os with
  | TARGET_WINDOWS => lit "\"
  | TARGET_LINUX | TARGET_MAC => lit "/"
  end.

Definition clrjit : std_string := lit "clrjit".

Definition IsJitImage (os : Platform) (name : std_string) : bool :=
  let fileNameStart :=
    match rfind name (pathSep os) with
    | None => 0%nat
    | Some p => S p
    end in
  match find name clrjit fileNameStart with
  | None => false
  | Some _ => true
  end.

(** ** What the host is asked to instrument *)

Record BBL : Type := {
  BBL_Address : Z;
  BBL_NumIns : Z
}.

(** A trace: its start address and its basic blocks, in the order
    [TRACE_BblHead], [BBL_Next], ... visit them. *)
Record TRACE : Type := {
  TRACE_Address : Z;
  TRACE_Bbls : list BBL
}.

Record IMG : Type := {
  IMG_Name : std_string;
  IMG_LowAddress : Z;
  IMG_HighAddress : Z;
  IMG_Rtns : list std_string
}.

(** A routine of an image, as [RTN_FindByName] returns it when valid. *)
Record RTN : Type := {
  RTN_Img : std_string;
  RTN_Name : std_string
}.

Definition std_string_eqb (a b : std_string) : bool :=
  if list_eq_dec ascii_dec a b then true else false.

Definition RTN_FindByName (img : IMG) (name : std_string) : option RTN :=
  if existsb (std_string_eqb name) (IMG_Rtns img)
  then Some {| RTN_Img := IMG_Name img; RTN_Name := name |}
  else None.

Inductive IPOINT : Type :=
| IPOINT_BEFORE
| IPOINT_ANYWHERE.

Inductive AFUNPTR : Type :=
| AFUN_DoCountLow
| AFUN_OverflowedLow
| AFUN_DoCountHigh
| AFUN_DoCount
| AFUN_ReadInsCount.

(** ** Ranges *)

Definition Range : Type := (Z * Z)%type.

Definition Range_eqb (p q : Range) : bool :=
  (fst p =? fst q) && (snd p =? snd q).

(** [std::find]: the position of the first element equal to [x]. *)
Fixpoint std_find (l : list Range) (x : Range) : option nat :=
  match l with
  | [] => None
  | y :: l' => if Range_eqb y x then Some 0%nat else option_map S (std_find l' x)
  end.

(** [vector::erase] of the element at position [i]. *)
Definition erase (l : list Range) (i : nat) : list Range :=
  firstn i l ++ skipn (S i) l.

(** The range loop of [Trace]: does some registered pair contain [addr]? *)
Fixpoint in_some_range (ranges : list Range) (addr : Z) : bool :=
  match ranges with
  | [] => false
  | p :: ranges' =>
      if (addr >=? fst p) && (addr <? snd p) then true
      else in_some_range ranges' addr
  end.

(** ** The tool *)

(** The globals of the tool that its callbacks change. *)
Record Tool : Type := {
  Lock : Z;
  TotalCount : Z;
  InstrumentRanges : list Range
}.

(** The initializers of the globals; [PIN_InitLock] leaves the lock free. *)
Definition initial_Tool : Tool :=
  {| Lock := 0; TotalCount := 0; InstrumentRanges := [] |}.

Definition set_Lock (t : Tool) (owner : Z) : Tool :=
  {| Lock := owner;
     TotalCount := TotalCount t;
     InstrumentRanges := InstrumentRanges t |}.

Definition set_TotalCount (t : Tool) (n : Z) : Tool :=
  {| Lock := Lock t;
     TotalCount := n;
     InstrumentRanges := InstrumentRanges t |}.

Definition set_InstrumentRanges (t : Tool) (l : list Range) : Tool :=
  {| Lock := Lock t;
     TotalCount := TotalCount t;
     InstrumentRanges := l |}.

(** The callbacks run one at a time, so taking the lock records its owner
    and releasing it frees it. *)
Definition PIN_GetLock (t : Tool) (owner : Z) : Tool := set_Lock t owner.
Definition PIN_ReleaseLock (t : Tool) : Tool := set_Lock t 0.

Definition Fini (QuietKnob : bool) (t : Tool) : std_string :=
  if negb QuietKnob
  then lit "Instructions executed: " ++ decimal (TotalCount t) ++ endl
  else [].

Definition ImageUnload (os : Platform) (img : IMG) (t : Tool) : Tool :=
  if IsJitImage os (IMG_Name img)
  then
    match std_find (InstrumentRanges t) (IMG_LowAddress img, IMG_HighAddress img) with
    | Some it => set_InstrumentRanges t (erase (InstrumentRanges t) it)
    | None => t
    end
  else t.

Inductive Callback : Type :=
| CB_ThreadStart
| CB_ThreadFini
| CB_Fini
| CB_ImageLoad
| CB_ImageUnload
| CB_Trace.

Section Registers.

(** Pin's register names, with the validity test of [pin.H]. *)
Context {REG : Type}.
Variable REG_eq_dec : forall r r' : REG, {r = r'} + {r <> r'}.
Variable REG_valid : REG -> bool.

(** The tool registers claimed by [main]: two halves under [TARGET_IA32],
    one register otherwise. *)
Inductive ToolRegs : Type :=
| Regs32 (InsCountLowReg InsCountHighReg : REG)
| Regs64 (InsCountReg : REG).

Definition CONTEXT : Type := REG -> Z.

Definition PIN_GetContextReg (ctxt : CONTEXT) (r : REG) : Z := ctxt r.

Definition PIN_SetContextReg (ctxt : CONTEXT) (r : REG) (v : Z) : CONTEXT :=
  fun r' => if REG_eq_dec r' r then v else ctxt r'.

Inductive IARG : Type :=
| IARG_FAST_ANALYSIS_CALL
| IARG_REG_VALUE (r : REG)
| IARG_ADDRINT (v : Z)
| IARG_RETURN_REGS (r : REG)
| IARG_FUNCARG_ENTRYPOINT_VALUE (n : Z).

Inductive Insertion : Type :=
| BBL_InsertCall (bbl : BBL) (at_ : IPOINT) (f : AFUNPTR) (args : list IARG)
| BBL_InsertIfCall (bbl : BBL) (at_ : IPOINT) (f : AFUNPTR) (args : list IARG)
| BBL_InsertThenCall (bbl : BBL) (at_ : IPOINT) (f : AFUNPTR) (args : list IARG)
| RTN_InsertCall (rtn : RTN) (at_ : IPOINT) (f : AFUNPTR) (args : list IARG).

(** The block an inserted call is attached to. *)
Definition Insertion_bbl (i : Insertion) : option BBL :=
  match i with
  | BBL_InsertCall bbl _ _ _
  | BBL_InsertIfCall bbl _ _ _
  | BBL_InsertThenCall bbl _ _ _ => Some bbl
  | RTN_InsertCall _ _ _ _ => None
  end.

Definition ThreadStart (regs : ToolRegs) (ctxt : CONTEXT) : CONTEXT :=
  match regs with
  | Regs32 InsCountLowReg InsCountHighReg =>
      let ctxt := PIN_SetContextReg ctxt InsCountLowReg 0 in
      PIN_SetContextReg ctxt InsCountHighReg 0
  | Regs64 InsCountReg =>
      PIN_SetContextReg ctxt InsCountReg 0
  end.

Definition ThreadFini (regs : ToolRegs) (tid : Z) (ctxt : CONTEXT) (t : Tool)
  : Tool :=
  let t := PIN_GetLock t (tid + 1) in
  let t :=
    match regs with
    | Regs32 InsCountLowReg InsCountHighReg =>
        let low := PIN_GetContextReg ctxt InsCountLowReg in
        let high := PIN_GetContextReg ctxt InsCountHighReg in
        set_TotalCount t
          (to_UINT64 (TotalCount t + Z.lor (to_UINT64 (Z.shiftl high 32)) low))
    | Regs64 InsCountReg =>
        set_TotalCount t
          (to_UINT64 (TotalCount t + PIN_GetContextReg ctxt InsCountReg))
    end in
  PIN_ReleaseLock t.

Definition ImageLoad (os : Platform) (regs : ToolRegs) (img : IMG) (t : Tool)
  : Tool * list Insertion :=
  let t :=
    if IsJitImage os (IMG_Name img)
    then set_InstrumentRanges t
           (InstrumentRanges t ++ [(IMG_LowAddress img, IMG_HighAddress img)])
    else t in
  match RTN_FindByName img (lit "Instrumentor_GetInsCount") with
  | Some getInsCount =>
      (t, [RTN_InsertCall getInsCount IPOINT_BEFORE AFUN_ReadInsCount
             (IARG_FUNCARG_ENTRYPOINT_VALUE 0 ::
              match regs with
              | Regs32 InsCountLowReg InsCountHighReg =>
                  [IARG_REG_VALUE InsCountLowReg; IARG_REG_VALUE InsCountHighReg]
              | Regs64 InsCountReg =>
                  [IARG_REG_VALUE InsCountReg]
              end)])
  | None => (t, [])
  end.

(** The calls inserted on one basic block by the body of the loop at
    [Found:]. *)
Definition instrument_bbl (regs : ToolRegs) (bbl : BBL) : list Insertion :=
  match regs with
  | Regs32 InsCountLowReg InsCountHighReg =>
      [BBL_InsertCall bbl IPOINT_BEFORE AFUN_DoCountLow
         [IARG_FAST_ANALYSIS_CALL; IARG_REG_VALUE InsCountLowReg;
          IARG_ADDRINT (BBL_NumIns bbl); IARG_RETURN_REGS InsCountLowReg];
       BBL_InsertIfCall bbl IPOINT_BEFORE AFUN_OverflowedLow
         [IARG_FAST_ANALYSIS_CALL; IARG_REG_VALUE InsCountLowReg;
          IARG_ADDRINT (BBL_NumIns bbl)];
       BBL_InsertThenCall bbl IPOINT_BEFORE AFUN_DoCountHigh
         [IARG_FAST_ANALYSIS_CALL; IARG_REG_VALUE InsCountHighReg;
          IARG_RETURN_REGS InsCountHighReg]]
  | Regs64 InsCountReg =>
      [BBL_InsertCall bbl IPOINT_ANYWHERE AFUN_DoCount
         [IARG_REG_VALUE InsCountReg; IARG_RETURN_REGS InsCountReg;
          IARG_ADDRINT (BBL_NumIns bbl)]]
  end.

Definition Trace (regs : ToolRegs) (trace : TRACE) (t : Tool) : list Insertion :=
  let addr := TRACE_Address trace in
  if in_some_range (InstrumentRanges t) addr
  then flat_map (instrument_bbl regs) (TRACE_Bbls trace)
  else [].

(** What [main] sees of the host: whether [PIN_Init] reports an error, the
    register each successive [PIN_ClaimToolRegister] call returns, and the
    knob summary printed by [Usage]. *)
Record Host : Type := {
  PIN_Init : bool;
  PIN_ClaimToolRegister : nat -> REG;
  StringKnobSummary : std_string
}.

(** [main] either returns an exit code, having written to [cerr], or hands
    control to the host with its callbacks registered
    ([PIN_StartProgram] does not return). *)
Inductive Outcome : Type :=
| Returned (code : Z) (cerr : std_string)
| Started (regs : ToolRegs) (t : Tool) (callbacks : list Callback).

Definition Usage (h : Host) : Z * std_string :=
  (-1,
   lit "CoreCLR pintool for investigating JIT throughput" ++ endl ++
   StringKnobSummary h ++ endl).

Definition main (tgt : Target) (h : Host) : Outcome :=
  if PIN_Init h then Returned (fst (Usage h)) (snd (Usage h))
  else
    let t := initial_Tool in
    let '(regs, claimed) :=
      match tgt with
      | TARGET_IA32 =>
          let InsCountLowReg := PIN_ClaimToolRegister h 0 in
          let InsCountHighReg := PIN_ClaimToolRegister h 1 in
          (Regs32 InsCountLowReg InsCountHighReg,
           REG_valid InsCountLowReg && REG_valid InsCountHighReg)
      | TARGET_IA32E =>
          let InsCountReg := PIN_ClaimToolRegister h 0 in
          (Regs64 InsCountReg, REG_valid InsCountReg)
      end in
    if negb claimed
    then Returned 1
           (lit "Could not allocate storage for instruction count." ++ endl)
    else Started regs t
           [CB_ThreadStart; CB_ThreadFini; CB_Fini;
            CB_ImageLoad; CB_ImageUnload; CB_Trace].

End Registers.

(** ** Notions used to state the properties *)

(** [pat] occurs in [s] at position [i]. *)
Definition occurs_at (pat s : std_string) (i : nat) : Prop :=
  exists pre post, s = pre ++ pat ++ post /\ List.length pre = i.

Definition contains (pat s : std_string) : Prop :=
  exists i, occurs_at pat s i.

(** [base] is what follows the last path separator of [name], or the whole
    of [name] when it has no separator. *)
Definition is_basename (os : Platform) (name base : std_string) : Prop :=
  (name = base \/ exists dir, name = dir ++ pathSep os ++ base) /\
  ~ contains (pathSep os) base.

(** Some registered range holds the address. *)
Definition registered (ranges : list Range) (addr : Z) : Prop :=
  exists lo hi, In (lo, hi) ranges /\ lo <= addr /\ addr < hi.

(** The count a thread carries in its tool registers, as the tool itself
    reads it out for the monitored process. *)
Definition thread_count {REG : Type} (regs : @ToolRegs REG) (ctxt : CONTEXT) : Z :=
  match regs with
  | Regs32 InsCountLowReg InsCountHighReg =>
      IA32.ReadInsCount (ctxt InsCountLowReg) (ctxt InsCountHighReg)
  | Regs64 InsCountReg =>
      IA32E.ReadInsCount (ctxt InsCountReg)
  end.

(** The tool registers hold [ADDRINT] values. *)
Definition CONTEXT_ok {REG : Type} (regs : @ToolRegs REG) (ctxt : CONTEXT) : Prop :=
  match regs with
  | Regs32 InsCountLowReg InsCountHighReg =>
      is_UINT32 (ctxt InsCountLowReg) /\ is_UINT32 (ctxt InsCountHighReg)
  | Regs64 InsCountReg =>
      is_UINT64 (ctxt InsCountReg)
  end.

(** Threads exit one after the other, each with its id and final context. *)
Definition ThreadFini_all {REG : Type} (regs : @ToolRegs REG)
  (exits : list (Z * CONTEXT)) (t : Tool) : Tool :=
  fold_left (fun t e => ThreadFini regs (fst e) (snd e) t) exits t.

Definition sum (l : list Z) : Z := fold_right Z.add 0 l.

Definition is_digit (c : ascii) : Prop :=
  In c (lit "0123456789").

Definition Range_eq_dec (p q : Range) : {p = q} + {p <> q}.
Proof. decide equality; apply Z.eq_dec. Defined.

(** Letter case: the upper-case letters A to Z become a to z. *)
Definition to_lower (c : ascii) : ascii :=
  let n := nat_of_ascii c in
  if ((65 <=? n) && (n <=? 90))%nat then ascii_of_nat (n + 32) else c.

Definition contains_ignoring_case (pat s : std_string) : Prop :=
  contains (map to_lower pat) (map to_lower s).

(** ** Running the inserted calls *)

Section Execution.

Context {REG : Type}.
Variable REG_eq_dec : forall r r' : REG, {r = r'} + {r <> r'}.

(** The values an inserted call passes to its analysis routine, in the
    order of its argument list: the current value of a register for
    [IARG_REG_VALUE], the constant for [IARG_ADDRINT]. *)
Fixpoint IARG_values (args : list (@IARG REG)) (ctxt : CONTEXT) : list Z :=
  match args with
  | [] => []
  | IARG_REG_VALUE r :: args' => PIN_GetContextReg ctxt r :: IARG_values args' ctxt
  | IARG_ADDRINT v :: args' => v :: IARG_values args' ctxt
  | _ :: args' => IARG_values args' ctxt
  end.

(** The register named by [IARG_RETURN_REGS], which receives the result. *)
Fixpoint IARG_return (args : list (@IARG REG)) : option REG :=
  match args with
  | [] => None
  | IARG_RETURN_REGS r :: _ => Some r
  | _ :: args' => IARG_return args'
  end.

(** The analysis routine behind a function pointer.  [ReadInsCount]
    returns nothing: it stores through its first argument. *)
Definition AFUN_apply (f : AFUNPTR) (values : list Z) : option Z :=
  match f, values with
  | AFUN_DoCountLow, [countLow; numInsts] => Some (IA32.DoCountLow countLow numInsts)
  | AFUN_OverflowedLow, [countLow; numInsts] => Some (IA32.OverflowedLow countLow numInsts)
  | AFUN_DoCountHigh, [countHigh] => Some (IA32.DoCountHigh countHigh)
  | AFUN_DoCount, [count; numInsts] => Some (IA32E.DoCount count numInsts)
  | _, _ => None
  end.

(** One analysis call: the result goes to the return register. *)
Definition analysis_call (f : AFUNPTR) (args : list IARG) (ctxt : CONTEXT)
  : CONTEXT :=
  match AFUN_apply f (IARG_values args ctxt), IARG_return args with
  | Some v, Some r => PIN_SetContextReg REG_eq_dec ctxt r v
  | _, _ => ctxt
  end.

(** The calls attached to a block run in the order of their insertion; a
    then-call runs when the if-call before it returned non-zero ([cond]). *)
Fixpoint run_insertions (ins : list (@Insertion REG)) (cond : bool)
  (ctxt : CONTEXT) : CONTEXT :=
  match ins with
  | [] => ctxt
  | BBL_InsertCall _ _ f args :: ins' =>
      run_insertions ins' false (analysis_call f args ctxt)
  | BBL_InsertIfCall _ _ f args :: ins' =>
      match AFUN_apply f (IARG_values args ctxt) with
      | Some v => run_insertions ins' (negb (v =? 0)) ctxt
      | None => run_insertions ins' false ctxt
      end
  | BBL_InsertThenCall _ _ f args :: ins' =>
      run_insertions ins' false
        (if cond then analysis_call f args ctxt else ctxt)
  | RTN_InsertCall _ _ _ _ :: ins' =>
      run_insertions ins' false ctxt
  end.

(** A thread runs through an instrumented block, then through a sequence
    of them. *)
Definition exec_bbl (regs : ToolRegs) (ctxt : CONTEXT) (bbl : BBL) : CONTEXT :=
  run_insertions (instrument_bbl regs bbl) false ctxt.

Definition exec_bbls (regs : ToolRegs) (bbls : list BBL) (ctxt : CONTEXT)
  : CONTEXT :=
  fold_left (exec_bbl regs) bbls ctxt.

End Execution.

(** The two tool registers of the 32-bit target are different registers. *)
Definition ToolRegs_distinct {REG : Type} (regs : @ToolRegs REG) : Prop :=
  match regs with
  | Regs32 InsCountLowReg InsCountHighReg => InsCountLowReg <> InsCountHighReg
  | Regs64 _ => True
  end.

(** Whether a register is one of the tool's. *)
Definition is_tool_reg {REG : Type} (regs : @ToolRegs REG) (r : REG) : Prop :=
  match regs with
  | Regs32 InsCountLowReg InsCountHighReg => r = InsCountLowReg \/ r = InsCountHighReg
  | Regs64 InsCountReg => r = InsCountReg
  end.

(** The block counts fit the argument they are passed in. *)
Definition BBL_ok {REG : Type} (regs : @ToolRegs REG) (bbl : BBL) : Prop :=
  match regs with
  | Regs32 _ _ => is_UINT32 (BBL_NumIns bbl)
  | Regs64 _ => True
  end.

(** ** Runs of the callbacks *)

Section Runs.

Context {REG : Type}.

(** What the host reports to the tool while the program runs. *)
Inductive Event : Type :=
| EvThreadFini (tid : Z) (ctxt : @CONTEXT REG)
| EvImageLoad (img : IMG)
| EvImageUnload (img : IMG)
| EvTrace (trace : TRACE).

Definition callback (os : Platform) (regs : @ToolRegs REG) (t : Tool) (e : Event)
  : Tool :=
  match e with
  | EvThreadFini tid ctxt => ThreadFini regs tid ctxt t
  | EvImageLoad img => fst (ImageLoad os regs img t)
  | EvImageUnload img => ImageUnload os img t
  | EvTrace _ => t
  end.

Definition run (os : Platform) (regs : @ToolRegs REG) (events : list Event)
  (t : Tool) : Tool :=
  fold_left (callback os regs) events t.

(** The counts of the threads that exit during a run. *)
Fixpoint exit_counts (regs : @ToolRegs REG) (events : list Event) : list Z :=
  match events with
  | [] => []
  | EvThreadFini _ ctxt :: events' => thread_count regs ctxt :: exit_counts regs events'
  | _ :: events' => exit_counts regs events'
  end.

(** [history before events after]: the images loaded after the events,
    given those loaded before, when every unloaded image is one that is
    loaded at that moment. *)
Inductive history : list IMG -> list Event -> list IMG -> Prop :=
| history_done (l : list IMG) :
    history l [] l
| history_load (l : list IMG) (img : IMG) (events : list Event) (l' : list IMG) :
    history (img :: l) events l' ->
    history l (EvImageLoad img :: events) l'
| history_unload (l1 l2 : list IMG) (img : IMG) (events : list Event)
    (l' : list IMG) :
    history (l1 ++ l2) events l' ->
    history (l1 ++ img :: l2) (EvImageUnload img :: events) l'
| history_thread (l : list IMG) (tid : Z) (ctxt : CONTEXT) (events : list Event)
    (l' : list IMG) :
    history l events l' ->
    history l (EvThreadFini tid ctxt :: events) l'
| history_trace (l : list IMG) (trace : TRACE) (events : list Event)
    (l' : list IMG) :
    history l events l' ->
    history l (EvTrace trace :: events) l'.

End Runs.

(** The address pairs of the loaded images that pass the heuristic. *)
Definition jit_ranges (os : Platform) (loaded : list IMG) : list Range :=
  map (fun img => (IMG_LowAddress img, IMG_HighAddress img))
      (filter (fun img => IsJitImage os (IMG_Name img)) loaded).

(** Blocks run one after the other on the halves, or on the one register. *)
Definition count_blocks (regs : Z * Z) (numInsts : list Z) : Z * Z :=
  fold_left IA32.count_block numInsts regs.

Definition DoCount_blocks (count : Z) (numInsts : list Z) : Z :=
  fold_left IA32E.DoCount numInsts count.

(** Reading a decimal numeral back. *)
Definition parse_decimal (s : std_string) : option Z :=
  option_map (fun d => Z.of_N (N.of_uint d))
             (NilZero.uint_of_string (string_of_list_ascii s)).

(** The call [ImageLoad] inserts before [Instrumentor_GetInsCount]. *)
Definition ReadInsCount_hook {REG : Type} (regs : @ToolRegs REG) (img : IMG)
  : Insertion :=
  RTN_InsertCall
    {| RTN_Img := IMG_Name img; RTN_Name := lit "Instrumentor_GetInsCount" |}
    IPOINT_BEFORE AFUN_ReadInsCount
    (IARG_FUNCARG_ENTRYPOINT_VALUE 0 ::
     match regs with
     | Regs32 InsCountLowReg InsCountHighReg =>
         [IARG_REG_VALUE InsCountLowReg; IARG_REG_VALUE InsCountHighReg]
     | Regs64 InsCountReg => [IARG_REG_VALUE InsCountReg]
     end).

(** ** Concrete inputs *)

Definition libclrjit : IMG :=
  {| IMG_Name := lit "/usr/share/dotnet/libclrjit.so";
     IMG_LowAddress := 4096;
     IMG_HighAddress := 8192;
     IMG_Rtns := [lit "getJit"; lit "jitStartup"] |}.

Definition libc : IMG :=
  {| IMG_Name := lit "/lib/libc.so.6";
     IMG_LowAddress := 4096;
     IMG_HighAddress := 8192;
     IMG_Rtns := [lit "malloc"] |}.

Definition libClrJit_upper : IMG :=
  {| IMG_Name := lit "/usr/share/dotnet/libClrJit.so";
     IMG_LowAddress := 4096;
     IMG_HighAddress := 8192;
     IMG_Rtns := [] |}.

(** The tool after the JIT image was loaded twice at the same addresses. *)
Definition loaded_twice : Tool :=
  fst (ImageLoad TARGET_LINUX (Regs64 tt) libclrjit
         (fst (ImageLoad TARGET_LINUX (Regs64 tt) libclrjit initial_Tool))).

(** A thread that exits with every bit of its counter set. *)
Definition after_full_thread : Tool :=
  ThreadFini (Regs64 tt) 0 (fun _ => 2 ^ 64 - 1) initial_Tool.

(** A thread of the 32-bit target: low half in register 0, high half in
    register 1. *)
Definition halves_context : @CONTEXT nat :=
  fun r => if (r =? 0)%nat then 4294967295 else 3.

(** A host whose first claimed register is valid and whose second is not. *)
Definition one_register_host : @Host nat :=
  {| PIN_Init := false;
     PIN_ClaimToolRegister := fun k => k;
     StringKnobSummary := lit "-quiet" |}.

(** Three blocks whose counts make the low half wrap twice. *)
Definition wrapping_counts : list Z := [4294967295; 5; 4294967290].

Definition two_bbls : list BBL :=
  [{| BBL_Address := 5000; BBL_NumIns := 4 |};
   {| BBL_Address := 5016; BBL_NumIns := 4294967295 |}].

Definition jit_trace : TRACE :=
  {| TRACE_Address := 5000; TRACE_Bbls := two_bbls |}.

(** An image that is not the JIT but exports the read-out routine. *)
Definition libcoreclr : IMG :=
  {| IMG_Name := lit "/usr/share/dotnet/libcoreclr.so";
     IMG_LowAddress := 16384;
     IMG_HighAddress := 32768;
     IMG_Rtns := [lit "coreclr_initialize"; lit "Instrumentor_GetInsCount"] |}.

(** A run: two images are loaded, a trace is seen, a thread exits and the
    first image is unloaded. *)
Definition session : list (@Event nat) :=
  [EvImageLoad libcoreclr; EvImageLoad libclrjit; EvTrace jit_trace;
   EvThreadFini 1 halves_context; EvImageUnload libcoreclr].


(** * Properties *)

(** ** Machine integers *)

Lemma UINT32_modulus_eq : UINT32_modulus = 4294967296.
Proof. reflexivity. Qed.

Lemma UINT64_modulus_eq : UINT64_modulus = 18446744073709551616.
Proof. reflexivity. Qed.

Lemma UINT64_split : UINT64_modulus = UINT32_modulus * UINT32_modulus.
Proof. reflexivity. Qed.

(** A high half shifted up and a low half below it do not overlap, so the
    bitwise or is a sum. *)
Lemma ReadInsCount_sum (low high : Z) :
  is_UINT32 low -> is_UINT32 high ->
  IA32.ReadInsCount low high = high * UINT32_modulus + low.
Proof.
  unfold is_UINT32, IA32.ReadInsCount, to_UINT64. intros Hl Hh.
  rewrite Z.shiftl_mul_pow2 by lia.
  change (2 ^ 32) with UINT32_modulus.
  rewrite Z.mod_small by (rewrite UINT64_split; nia).
  pose proof (Z.add_lor_land (high * UINT32_modulus) low) as Hsum.
  enough (Z.land (high * UINT32_modulus) low = 0) by lia.
  apply Z.bits_inj'. intros i Hi.
  rewrite Z.land_spec, Z.bits_0.
  destruct (Z.ltb_spec i 32) as [Hlt | Hge].
  - unfold UINT32_modulus. rewrite Z.mul_pow2_bits_low by lia. reflexivity.
  - replace (Z.testbit low i) with false; [ apply andb_false_r | ].
    symmetry. destruct (Z.eq_dec low 0) as [-> | Hnz]; [ apply Z.bits_0 | ].
    apply Z.bits_above_log2; [ lia | ].
    apply Z.lt_le_trans with 32; [ | lia ].
    apply Z.log2_lt_pow2; unfold UINT32_modulus in *; lia.
Qed.

Lemma ReadInsCount_range (low high : Z) :
  is_UINT32 low -> is_UINT32 high -> is_UINT64 (IA32.ReadInsCount low high).
Proof.
  intros Hl Hh. rewrite ReadInsCount_sum by assumption.
  unfold is_UINT32, is_UINT64 in *. rewrite UINT64_split. nia.
Qed.

(** The low half after the addition is below the count added exactly when
    the 32-bit addition wrapped. *)
Lemma OverflowedLow_iff_carry (low n : Z) :
  is_UINT32 low -> is_UINT32 n ->
  (IA32.OverflowedLow (IA32.DoCountLow low n) n <> 0 <->
   UINT32_modulus <= low + n).
Proof.
  unfold is_UINT32, IA32.OverflowedLow, IA32.DoCountLow, to_UINT32.
  intros Hl Hn.
  destruct (Z_lt_le_dec (low + n) UINT32_modulus) as [Hs | Hb].
  - rewrite Z.mod_small by lia.
    destruct (Z.ltb_spec (low + n) n); lia.
  - replace ((low + n) mod UINT32_modulus) with (low + n - UINT32_modulus).
    + destruct (Z.ltb_spec (low + n - UINT32_modulus) n); lia.
    + apply Z.mod_unique with 1; lia.
Qed.

Lemma DoCountLow_cases (low n : Z) :
  is_UINT32 low -> is_UINT32 n ->
  (low + n < UINT32_modulus /\ IA32.DoCountLow low n = low + n) \/
  (UINT32_modulus <= low + n /\ IA32.DoCountLow low n = low + n - UINT32_modulus).
Proof.
  unfold is_UINT32, IA32.DoCountLow, to_UINT32. intros Hl Hn.
  destruct (Z_lt_le_dec (low + n) UINT32_modulus) as [Hs | Hb].
  - left. split; [ assumption | ]. apply Z.mod_small. lia.
  - right. split; [ assumption | ]. symmetry. apply Z.mod_unique with 1; lia.
Qed.

Lemma DoCountHigh_cases (high : Z) :
  is_UINT32 high ->
  (high + 1 < UINT32_modulus /\ IA32.DoCountHigh high = high + 1) \/
  (high + 1 = UINT32_modulus /\ IA32.DoCountHigh high = 0).
Proof.
  unfold is_UINT32, IA32.DoCountHigh, to_UINT32. intros Hh.
  destruct (Z_lt_le_dec (high + 1) UINT32_modulus) as [Hs | Hb].
  - left. split; [ assumption | ]. apply Z.mod_small. lia.
  - right. split; [ lia | ]. symmetry. apply Z.mod_unique with 1; lia.
Qed.

(** The arithmetic of the carry: halves and their 64-bit value. *)
Lemma split_add (low high n : Z) :
  is_UINT32 low -> is_UINT32 high -> is_UINT32 n ->
  let low' := IA32.DoCountLow low n in
  let high' := if low' <? n then IA32.DoCountHigh high else high in
  is_UINT32 low' /\ is_UINT32 high' /\
  high' * UINT32_modulus + low' =
  to_UINT64 (high * UINT32_modulus + low + n).
Proof.
  intros Hl Hh Hn low' high'.
  pose proof (OverflowedLow_iff_carry low n Hl Hn) as Hcarry.
  unfold IA32.OverflowedLow in Hcarry. fold low' in Hcarry.
  destruct (DoCountLow_cases low n Hl Hn) as [[Hs Hlow] | [Hb Hlow]];
    fold low' in Hlow; unfold is_UINT32 in *; unfold to_UINT64;
    rewrite UINT64_split.
  - assert (Hnlt : (low' <? n) = false) by (apply Z.ltb_ge; lia).
    unfold high'. rewrite Hnlt.
    repeat split; try lia.
    rewrite Z.mod_small by nia. lia.
  - assert (Hlt : (low' <? n) = true) by (apply Z.ltb_lt; lia).
    unfold high'. rewrite Hlt.
    destruct (DoCountHigh_cases high Hh) as [[Hs' Hhigh] | [Hb' Hhigh]];
      rewrite Hhigh.
    + repeat split; try lia.
      rewrite Z.mod_small by nia. lia.
    + repeat split; try lia.
      apply Z.mod_unique with 1; nia.
Qed.

(** C1: on the 32-bit target, for 32-bit halves [low], [high] and a block
    count [n] below 2^32, the low half becomes [(low + n) mod 2^32] through
    [DoCountLow], the high half goes through [DoCountHigh] exactly when
    [OverflowedLow] sees the new low half below [n], and the pair read back
    as [(high' << 32) | low'] is the old 64-bit value plus [n] modulo
    2^64. *)
Theorem count_block_is_64bit_add (low high n : Z) :
  is_UINT32 low -> is_UINT32 high -> is_UINT32 n ->
  let low' := fst (IA32.count_block (low, high) n) in
  let high' := snd (IA32.count_block (low, high) n) in
  low' = (low + n) mod 2 ^ 32 /\
  high' = (if low' <? n then IA32.DoCountHigh high else high) /\
  is_UINT32 low' /\ is_UINT32 high' /\
  Z.lor (Z.shiftl high' 32) low' = (Z.lor (Z.shiftl high 32) low + n) mod 2 ^ 64 /\
  IA32.ReadInsCount low' high' = to_UINT64 (IA32.ReadInsCount low high + n).
Proof.
  intros Hl Hh Hn.
  destruct (split_add low high n Hl Hh Hn) as (Hl' & Hh' & Hsum).
  cbv zeta in *. unfold IA32.count_block, IA32.OverflowedLow.
  set (low' := IA32.DoCountLow low n) in *.
  assert (Hshift : forall l h, is_UINT32 l -> is_UINT32 h ->
            Z.lor (Z.shiftl h 32) l = IA32.ReadInsCount l h).
  { intros l h Hl0 Hh0. unfold IA32.ReadInsCount, to_UINT64.
    rewrite Z.mod_small; [ reflexivity | ].
    rewrite Z.shiftl_mul_pow2 by lia. unfold is_UINT32 in *.
    change (2 ^ 32) with UINT32_modulus. rewrite UINT64_split. nia. }
  assert (Hres : (if (if low' <? n then 1 else 0) =? 0
                  then (low', high) else (low', IA32.DoCountHigh high)) =
                 (low', if low' <? n then IA32.DoCountHigh high else high)).
  { destruct (low' <? n); reflexivity. }
  rewrite Hres. cbn [fst snd].
  change (2 ^ 64) with UINT64_modulus.
  repeat split; try apply Hl'; try apply Hh'.
  - rewrite !Hshift by assumption.
    rewrite !ReadInsCount_sum by assumption. exact Hsum.
  - rewrite !ReadInsCount_sum by assumption. exact Hsum.
Qed.

(** ** Accumulating the total *)

Section Counting.

Context {REG : Type}.
Implicit Types (regs : @ToolRegs REG) (ctxt : @CONTEXT REG) (t : Tool).

Lemma to_UINT64_range (x : Z) : is_UINT64 (to_UINT64 x).
Proof. apply Z.mod_pos_bound. reflexivity. Qed.

Lemma thread_count_range regs ctxt :
  CONTEXT_ok regs ctxt -> is_UINT64 (thread_count regs ctxt).
Proof.
  destruct regs as [lo hi | r]; cbn.
  - intros [Hl Hh]. now apply ReadInsCount_range.
  - trivial.
Qed.

(** One thread exit adds the thread's count, as [ReadInsCount] gives it,
    to the total; the lock is free again and the ranges are untouched. *)
Lemma ThreadFini_TotalCount regs tid ctxt t :
  TotalCount (ThreadFini regs tid ctxt t) =
  to_UINT64 (TotalCount t + thread_count regs ctxt).
Proof. destruct regs; reflexivity. Qed.

Lemma ThreadFini_Lock regs tid ctxt t :
  Lock (ThreadFini regs tid ctxt t) = 0.
Proof. destruct regs; reflexivity. Qed.

Lemma ThreadFini_InstrumentRanges regs tid ctxt t :
  InstrumentRanges (ThreadFini regs tid ctxt t) = InstrumentRanges t.
Proof. destruct regs; reflexivity. Qed.

Lemma ThreadFini_all_TotalCount regs exits : forall t,
  to_UINT64 (TotalCount (ThreadFini_all regs exits t)) =
  to_UINT64 (TotalCount t + sum (map (fun e => thread_count regs (snd e)) exits)).
Proof.
  induction exits as [| [tid ctxt] exits IH]; intros t; cbn.
  - now rewrite Z.add_0_r.
  - unfold ThreadFini_all in IH. rewrite IH, ThreadFini_TotalCount.
    unfold to_UINT64. cbn [snd].
    rewrite Z.add_mod_idemp_l by discriminate.
    fold (sum (map (fun e : Z * CONTEXT => thread_count regs (snd e)) exits)).
    now rewrite Z.add_assoc.
Qed.

Lemma ThreadFini_all_range regs exits : forall t,
  is_UINT64 (TotalCount t) ->
  is_UINT64 (TotalCount (ThreadFini_all regs exits t)).
Proof.
  induction exits as [| [tid ctxt] exits IH]; intros t Ht; cbn.
  - assumption.
  - apply IH. rewrite ThreadFini_TotalCount. apply to_UINT64_range.
Qed.

(** C2: from the initial total 0, after the threads of any finite list
    have exited, [TotalCount] is the sum of their counts modulo 2^64, and
    that is the number [Fini] reports. *)
Theorem TotalCount_is_sum_of_thread_counts regs (exits : list (Z * CONTEXT)) :
  let counts := map (fun e => thread_count regs (snd e)) exits in
  let t := ThreadFini_all regs exits initial_Tool in
  TotalCount t = (sum counts) mod 2 ^ 64 /\
  Fini false t =
    lit "Instructions executed: " ++ decimal ((sum counts) mod 2 ^ 64) ++ endl.
Proof.
  cbv zeta.
  assert (H : TotalCount (ThreadFini_all regs exits initial_Tool) =
              (sum (map (fun e => thread_count regs (snd e)) exits)) mod 2 ^ 64).
  { pose proof (ThreadFini_all_TotalCount regs exits initial_Tool) as Hs.
    pose proof (ThreadFini_all_range regs exits initial_Tool) as Hr.
    cbn [TotalCount initial_Tool] in Hs, Hr.
    unfold to_UINT64 in Hs. rewrite Z.mod_small in Hs.
    - exact Hs.
    - apply Hr. unfold is_UINT64. rewrite UINT64_modulus_eq. lia. }
  split; [ exact H | ].
  unfold Fini. cbn [negb]. now rewrite H.
Qed.

(** C7, as the code has it: with a 64-bit total and a thread whose
    registers hold [ADDRINT] values, the total after [ThreadFini] is at
    least the total before exactly when the sum of the total and the
    thread's count stays below 2^64. *)
Theorem ThreadFini_monotone_iff_no_wrap regs tid ctxt t :
  is_UINT64 (TotalCount t) -> CONTEXT_ok regs ctxt ->
  (TotalCount t <= TotalCount (ThreadFini regs tid ctxt t) <->
   TotalCount t + thread_count regs ctxt < 2 ^ 64).
Proof.
  intros Ht Hc. apply thread_count_range in Hc.
  rewrite ThreadFini_TotalCount. unfold to_UINT64, is_UINT64 in *.
  change (2 ^ 64) with UINT64_modulus.
  set (c := thread_count regs ctxt) in *.
  destruct (Z_lt_le_dec (TotalCount t + c) UINT64_modulus) as [Hs | Hb].
  - rewrite Z.mod_small by lia. lia.
  - replace ((TotalCount t + c) mod UINT64_modulus)
      with (TotalCount t + c - UINT64_modulus).
    + lia.
    + apply Z.mod_unique with 1; lia.
Qed.

End Counting.

(** ** The report *)

Lemma string_of_uint_digits (d : Decimal.uint) :
  Forall is_digit (lit (NilEmpty.string_of_uint d)).
Proof.
  induction d; cbn; constructor; try assumption; unfold is_digit; cbn; tauto.
Qed.

Lemma decimal_digits (n : Z) : Forall is_digit (decimal n).
Proof.
  unfold decimal, NilZero.string_of_uint.
  destruct (N.to_uint (Z.to_N n)) eqn:E;
    try (rewrite <- E; apply string_of_uint_digits).
  cbn. constructor; [ unfold is_digit; cbn; tauto | constructor ].
Qed.

Lemma decimal_nonempty (n : Z) : decimal n <> [].
Proof.
  unfold decimal, NilZero.string_of_uint.
  destruct (N.to_uint (Z.to_N n)); discriminate.
Qed.

(** C8: with the quiet flag [Fini] writes nothing; without it, it writes
    the text "Instructions executed: ", the total in decimal and the end of
    line, which is the only line break of the output. *)
Theorem Fini_report (t : Tool) :
  Fini true t = [] /\
  Fini false t = lit "Instructions executed: " ++ decimal (TotalCount t) ++ endl /\
  Forall is_digit (decimal (TotalCount t)) /\
  decimal (TotalCount t) <> [] /\
  ~ In "010"%char (lit "Instructions executed: " ++ decimal (TotalCount t)).
Proof.
  repeat split; try reflexivity.
  - apply decimal_digits.
  - apply decimal_nonempty.
  - intros Hin. apply in_app_or in Hin. destruct Hin as [Hin | Hin].
    + cbn in Hin. repeat (destruct Hin as [Hin | Hin]; [ discriminate | ]).
      exact Hin.
    + pose proof (decimal_digits (TotalCount t)) as Hd.
      rewrite Forall_forall in Hd. apply Hd in Hin.
      unfold is_digit in Hin. cbn in Hin.
      repeat (destruct Hin as [Hin | Hin]; [ discriminate | ]).
      exact Hin.
Qed.

(** ** Searching in a [std::string] *)

Section Search.

Implicit Types (pat s : std_string) (i j : nat).

Lemma starts_with_spec pat : forall s,
  starts_with pat s = true <-> exists post, s = pat ++ post.
Proof.
  induction pat as [| p pat IH]; intros s; cbn.
  - split; [ intros _; now exists s | reflexivity ].
  - destruct s as [| c s].
    + split; [ discriminate | intros [post H]; discriminate ].
    + rewrite andb_true_iff, Ascii.eqb_eq, IH. split.
      * intros [-> [post ->]]. now exists post.
      * intros [post H]. injection H as -> ->. split; [ reflexivity | now exists post ].
Qed.

Lemma occurs_at_0 pat s :
  occurs_at pat s 0 <-> starts_with pat s = true.
Proof.
  rewrite starts_with_spec. split.
  - intros (pre & post & -> & Hlen).
    apply length_zero_iff_nil in Hlen. subst pre. now exists post.
  - intros [post ->]. now exists [], post.
Qed.

Lemma occurs_at_S pat c s i :
  occurs_at pat (c :: s) (S i) <-> occurs_at pat s i.
Proof.
  split.
  - intros (pre & post & Heq & Hlen).
    destruct pre as [| c' pre]; [ discriminate | ].
    injection Heq as -> ->. injection Hlen as Hlen.
    now exists pre, post.
  - intros (pre & post & -> & Hlen).
    exists (c :: pre), post. split; [ reflexivity | cbn; now f_equal ].
Qed.

Lemma occurs_at_nil pat i : occurs_at pat [] i -> i = 0%nat.
Proof.
  intros (pre & post & Heq & Hlen).
  symmetry in Heq. apply app_eq_nil in Heq. destruct Heq as [-> _].
  now subst i.
Qed.

Lemma occurs_at_length pat s i :
  occurs_at pat s i -> (i + List.length pat <= List.length s)%nat.
Proof.
  intros (pre & post & -> & Hlen). rewrite !length_app. lia.
Qed.

(** [find_first] returns the lowest position of an occurrence. *)
Lemma find_first_Some pat : forall s i,
  find_first pat s = Some i ->
  occurs_at pat s i /\ forall j, (j < i)%nat -> ~ occurs_at pat s j.
Proof.
  induction s as [| c s IH]; intros i; cbn [find_first].
  - destruct (starts_with pat []) eqn:E; [ | discriminate ].
    intros [= <-]. split; [ now apply occurs_at_0 | intros j Hj; lia ].
  - destruct (starts_with pat (c :: s)) eqn:E.
    + intros [= <-]. split; [ now apply occurs_at_0 | intros j Hj; lia ].
    + destruct (find_first pat s) as [k |] eqn:Ek; [ | discriminate ].
      intros [= <-]. destruct (IH k eq_refl) as [Hocc Hmin]. split.
      * now apply occurs_at_S.
      * intros [| j] Hj Hj'.
        -- apply occurs_at_0 in Hj'. congruence.
        -- apply occurs_at_S in Hj'. apply (Hmin j); [ lia | assumption ].
Qed.

Lemma find_first_None pat : forall s,
  find_first pat s = None -> forall j, ~ occurs_at pat s j.
Proof.
  induction s as [| c s IH]; cbn [find_first].
  - destruct (starts_with pat []) eqn:E; [ discriminate | ].
    intros _ j Hj. pose proof (occurs_at_nil _ _ Hj) as ->.
    apply occurs_at_0 in Hj. congruence.
  - destruct (starts_with pat (c :: s)) eqn:E; [ discriminate | ].
    destruct (find_first pat s) eqn:Ek; [ discriminate | ].
    intros _ [| j] Hj.
    + apply occurs_at_0 in Hj. congruence.
    + apply occurs_at_S in Hj. now apply (IH eq_refl j).
Qed.

Lemma find_last_None pat : forall s,
  find_last pat s = None -> forall j, ~ occurs_at pat s j.
Proof.
  induction s as [| c s IH]; cbn [find_last].
  - destruct (starts_with pat []) eqn:E; [ discriminate | ].
    intros _ j Hj. pose proof (occurs_at_nil _ _ Hj) as ->.
    apply occurs_at_0 in Hj. congruence.
  - destruct (find_last pat s) eqn:Ek; [ discriminate | ].
    destruct (starts_with pat (c :: s)) eqn:E; [ discriminate | ].
    intros _ [| j] Hj.
    + apply occurs_at_0 in Hj. congruence.
    + apply occurs_at_S in Hj. now apply (IH eq_refl j).
Qed.

(** [find_last] returns the highest position of an occurrence. *)
Lemma find_last_Some pat : forall s i,
  find_last pat s = Some i ->
  occurs_at pat s i /\ forall j, (i < j)%nat -> ~ occurs_at pat s j.
Proof.
  induction s as [| c s IH]; intros i; cbn [find_last].
  - destruct (starts_with pat []) eqn:E; [ | discriminate ].
    intros [= <-]. split; [ now apply occurs_at_0 | ].
    intros j Hj Hocc. apply occurs_at_nil in Hocc. lia.
  - destruct (find_last pat s) as [k |] eqn:Ek.
    + intros [= <-]. destruct (IH k eq_refl) as [Hocc Hmax]. split.
      * now apply occurs_at_S.
      * intros [| j] Hj Hj'; [ lia | ].
        apply occurs_at_S in Hj'. apply (Hmax j); [ lia | assumption ].
    + destruct (starts_with pat (c :: s)) eqn:E; [ | discriminate ].
      intros [= <-]. split; [ now apply occurs_at_0 | ].
      intros [| j] Hj Hj'; [ lia | ].
      apply occurs_at_S in Hj'.
      now apply (find_last_None pat s Ek j).
Qed.

(** Occurrences at or after [pos] are the occurrences in the suffix that
    starts at [pos]. *)
Lemma occurs_at_skipn pat : forall pos s k,
  (pos <= List.length s)%nat ->
  (occurs_at pat (skipn pos s) k <-> occurs_at pat s (pos + k)).
Proof.
  induction pos as [| pos IH]; intros s k Hpos; cbn [skipn Nat.add].
  - reflexivity.
  - destruct s as [| c s]; [ cbn in Hpos; lia | ].
    rewrite occurs_at_S. apply IH. cbn in Hpos. lia.
Qed.

Lemma find_Some s pat pos i :
  find s pat pos = Some i ->
  (pos <= i)%nat /\ occurs_at pat s i /\
  forall j, (pos <= j < i)%nat -> ~ occurs_at pat s j.
Proof.
  unfold find. destruct (Nat.leb_spec pos (List.length s)) as [Hle | Hgt];
    [ | discriminate ].
  destruct (find_first pat (skipn pos s)) as [k |] eqn:Ek; [ | discriminate ].
  intros [= <-]. destruct (find_first_Some _ _ _ Ek) as [Hocc Hmin].
  split; [ lia | split ].
  - now apply occurs_at_skipn.
  - intros j Hj Hj'. replace j with (pos + (j - pos))%nat in Hj' by lia.
    apply occurs_at_skipn in Hj'; [ | assumption ].
    apply (Hmin (j - pos)%nat); [ lia | assumption ].
Qed.

Lemma find_None s pat pos :
  pat <> [] ->
  find s pat pos = None ->
  forall j, (pos <= j)%nat -> ~ occurs_at pat s j.
Proof.
  unfold find. intros Hpat.
  destruct (Nat.leb_spec pos (List.length s)) as [Hle | Hgt].
  - destruct (find_first pat (skipn pos s)) as [k |] eqn:Ek; [ discriminate | ].
    intros _ j Hj Hj'. replace j with (pos + (j - pos))%nat in Hj' by lia.
    apply occurs_at_skipn in Hj'; [ | assumption ].
    now apply (find_first_None _ _ Ek (j - pos)%nat).
  - intros _ j Hj Hj'. apply occurs_at_length in Hj'.
    destruct pat; [ congruence | cbn in Hj'; lia ].
Qed.

End Search.

(** ** The JIT image heuristic *)

Lemma clrjit_nonempty : clrjit <> [].
Proof. discriminate. Qed.

Lemma pathSep_length (os : Platform) : List.length (pathSep os) = 1%nat.
Proof. destruct os; reflexivity. Qed.

(** Where an occurrence lies once the string is cut in two. *)
Lemma occurs_at_app_r (pat a b : std_string) (i : nat) :
  (List.length a <= i)%nat ->
  (occurs_at pat (a ++ b) i <-> occurs_at pat b (i - List.length a)).
Proof.
  intros Hle.
  pose proof (occurs_at_skipn pat (List.length a) (a ++ b) (i - List.length a)) as H.
  rewrite skipn_app, skipn_all, Nat.sub_diag in H. cbn [skipn app] in H.
  replace (List.length a + (i - List.length a))%nat with i in H by lia.
  symmetry. apply H. rewrite length_app. lia.
Qed.

(** The position past the last separator, in the words of the heuristic:
    every separator of the name lies before it. *)
Lemma IsJitImage_positions (os : Platform) (name : std_string) :
  IsJitImage os name = true <->
  exists i, occurs_at clrjit name i /\
            forall j, occurs_at (pathSep os) name j -> (j < i)%nat.
Proof.
  unfold IsJitImage, rfind. split.
  - destruct (find name clrjit _) as [i |] eqn:Ef; [ intros _ | discriminate ].
    apply find_Some in Ef. destruct Ef as (Hpos & Hocc & _).
    exists i. split; [ assumption | ]. intros j Hj.
    destruct (find_last (pathSep os) name) as [p |] eqn:Er.
    + destruct (find_last_Some _ _ _ Er) as [_ Hmax].
      destruct (Nat.lt_ge_cases p j) as [Hlt | Hge]; [ | lia ].
      now destruct (Hmax j Hlt).
    + now destruct (find_last_None _ _ Er j).
  - intros (i & Hocc & Hsep).
    destruct (find name clrjit _) as [k |] eqn:Ef; [ reflexivity | exfalso ].
    apply (find_None _ _ _ clrjit_nonempty Ef i); [ | assumption ].
    destruct (find_last (pathSep os) name) as [p |] eqn:Er; [ | lia ].
    destruct (find_last_Some _ _ _ Er) as [Hp _].
    specialize (Hsep p Hp). lia.
Qed.

Lemma basename_exists (os : Platform) (name : std_string) :
  exists base, is_basename os name base.
Proof.
  destruct (find_last (pathSep os) name) as [p |] eqn:Er.
  - destruct (find_last_Some _ _ _ Er) as [(dir & base & Hname & Hlen) Hmax].
    exists base. split; [ right; now exists dir | ].
    intros [k Hk]. apply (Hmax (List.length (dir ++ pathSep os) + k)%nat).
    + rewrite length_app, pathSep_length. lia.
    + rewrite Hname, app_assoc. apply occurs_at_app_r; [ lia | ].
      now replace (List.length (dir ++ pathSep os) + k - List.length (dir ++ pathSep os))%nat
        with k by lia.
  - exists name. split; [ now left | ].
    intros [k Hk]. now apply (find_last_None _ _ Er k).
Qed.

Lemma IsJitImage_basename (os : Platform) (name base : std_string) :
  is_basename os name base ->
  (IsJitImage os name = true <-> contains clrjit base).
Proof.
  intros [Hname Hnosep]. rewrite IsJitImage_positions.
  destruct Hname as [-> | [dir ->]].
  - split.
    + intros (i & Hocc & _). now exists i.
    + intros [i Hocc]. exists i. split; [ assumption | ].
      intros j Hj. destruct Hnosep. now exists j.
  - rewrite app_assoc.
    assert (Hlen : List.length (dir ++ pathSep os) = S (List.length dir)).
    { rewrite length_app, pathSep_length. lia. }
    split.
    + intros (i & Hocc & Hsep).
      assert (Hdir : (List.length dir < i)%nat).
      { apply Hsep. exists dir, base. now rewrite app_assoc. }
      apply occurs_at_app_r in Hocc; [ | lia ].
      now exists (i - List.length (dir ++ pathSep os))%nat.
    + intros [k Hocc].
      exists (List.length (dir ++ pathSep os) + k)%nat. split.
      * apply occurs_at_app_r; [ lia | ].
        now replace (List.length (dir ++ pathSep os) + k - List.length (dir ++ pathSep os))%nat
          with k by lia.
      * intros j Hj.
        destruct (Nat.lt_ge_cases j (List.length (dir ++ pathSep os))) as [Hlt | Hge];
          [ lia | ].
        apply occurs_at_app_r in Hj; [ | assumption ].
        destruct Hnosep. now exists (j - List.length (dir ++ pathSep os))%nat.
Qed.

(** C3: [IsJitImage] answers true exactly when "clrjit" occurs in the name
    at a position that every path separator of the name precedes (any
    position when the name has none); the name has a basename, and this is
    the same as "clrjit" occurring in the basename. *)
Theorem IsJitImage_iff_clrjit_in_basename (os : Platform) (name : std_string) :
  (IsJitImage os name = true <->
   exists i, occurs_at clrjit name i /\
             forall j, occurs_at (pathSep os) name j -> (j < i)%nat) /\
  (exists base, is_basename os name base /\
                (IsJitImage os name = true <-> contains clrjit base)).
Proof.
  split; [ apply IsJitImage_positions | ].
  destruct (basename_exists os name) as [base Hbase].
  exists base. split; [ assumption | now apply IsJitImage_basename ].
Qed.

(** ** The registered ranges *)

Lemma Range_eqb_eq (p q : Range) : Range_eqb p q = true <-> p = q.
Proof.
  destruct p as [a b], q as [c d]. unfold Range_eqb. cbn [fst snd].
  rewrite andb_true_iff, !Z.eqb_eq. split.
  - now intros [-> ->].
  - now intros [= -> ->].
Qed.

Lemma in_some_range_spec (ranges : list Range) (addr : Z) :
  in_some_range ranges addr = true <-> registered ranges addr.
Proof.
  unfold registered. induction ranges as [| [lo hi] ranges IH]; cbn [in_some_range fst snd].
  - split; [ discriminate | intros (lo & hi & [] & _) ].
  - destruct (Z.geb_spec addr lo) as [Hlo | Hlo];
      destruct (Z.ltb_spec addr hi) as [Hhi | Hhi]; cbn [andb];
      try (rewrite IH; split;
           [ intros (lo' & hi' & Hin & Hb); exists lo', hi'; split; [ now right | exact Hb ]
           | intros (lo' & hi' & [[= <- <-] | Hin] & Hb);
             [ lia | exists lo', hi'; now split ] ]).
    split; [ intros _ | reflexivity ].
    exists lo, hi. split; [ now left | lia ].
Qed.

(** [std::find] stops at the first element equal to the value. *)
Lemma std_find_Some (x : Range) : forall l i,
  std_find l x = Some i ->
  exists pre post, l = pre ++ x :: post /\ List.length pre = i /\ ~ In x pre.
Proof.
  induction l as [| y l IH]; intros i; cbn [std_find]; [ discriminate | ].
  destruct (Range_eqb y x) eqn:E.
  - intros [= <-]. apply Range_eqb_eq in E. subst y.
    exists [], l. repeat split. intros [].
  - destruct (std_find l x) as [k |] eqn:Ek; [ | discriminate ].
    intros [= <-]. destruct (IH k eq_refl) as (pre & post & -> & Hlen & Hnin).
    exists (y :: pre), post. repeat split.
    + cbn. now f_equal.
    + intros [-> | Hin]; [ | contradiction ].
      assert (Range_eqb x x = true) by now apply Range_eqb_eq.
      congruence.
Qed.

Lemma std_find_None (x : Range) : forall l,
  std_find l x = None <-> ~ In x l.
Proof.
  induction l as [| y l IH]; cbn [std_find].
  - split; [ intros _ [] | reflexivity ].
  - destruct (Range_eqb y x) eqn:E.
    + apply Range_eqb_eq in E. subst y.
      split; [ discriminate | intros H; destruct H; now left ].
    + destruct (std_find l x) as [k |] eqn:Ek.
      * split; [ discriminate | ]. intros H. exfalso.
        assert (Hk : ~ In x l) by (intros Hin; apply H; now right).
        apply IH in Hk. discriminate.
      * split; [ intros _ | reflexivity ].
        intros [-> | Hin].
        -- assert (Range_eqb x x = true) by now apply Range_eqb_eq.
           congruence.
        -- now apply (proj1 IH eq_refl).
Qed.

Lemma erase_middle (pre post : list Range) (x : Range) :
  erase (pre ++ x :: post) (List.length pre) = pre ++ post.
Proof.
  unfold erase.
  rewrite firstn_app, firstn_all, Nat.sub_diag, app_nil_r.
  change (S (List.length pre)) with (1 + List.length pre)%nat.
  rewrite <- skipn_skipn, skipn_app, skipn_all, Nat.sub_diag.
  reflexivity.
Qed.

(** What [ImageUnload] does for an image that passes the heuristic and
    whose pair is registered. *)
Lemma ImageUnload_registered (os : Platform) (img : IMG) (t : Tool) :
  IsJitImage os (IMG_Name img) = true ->
  In (IMG_LowAddress img, IMG_HighAddress img) (InstrumentRanges t) ->
  exists pre post,
    InstrumentRanges t = pre ++ (IMG_LowAddress img, IMG_HighAddress img) :: post /\
    ~ In (IMG_LowAddress img, IMG_HighAddress img) pre /\
    ImageUnload os img t = set_InstrumentRanges t (pre ++ post).
Proof.
  intros Hjit Hin. unfold ImageUnload. rewrite Hjit.
  destruct (std_find _ _) as [i |] eqn:Ef.
  - apply std_find_Some in Ef. destruct Ef as (pre & post & Heq & Hlen & Hnin).
    exists pre, post. repeat split; try assumption.
    rewrite Heq at 1. rewrite <- Hlen. now rewrite erase_middle.
  - apply std_find_None in Ef. contradiction.
Qed.

Lemma ImageUnload_unregistered (os : Platform) (img : IMG) (t : Tool) :
  ~ In (IMG_LowAddress img, IMG_HighAddress img) (InstrumentRanges t) ->
  ImageUnload os img t = t.
Proof.
  intros Hnin. unfold ImageUnload.
  destruct (IsJitImage os (IMG_Name img)); [ | reflexivity ].
  apply std_find_None in Hnin. now rewrite Hnin.
Qed.

Section Callbacks.

Context {REG : Type}.
Variable REG_valid : REG -> bool.
Implicit Types (regs : @ToolRegs REG) (t : Tool) (img : IMG).

Lemma ImageLoad_jit os regs img t :
  IsJitImage os (IMG_Name img) = true ->
  fst (ImageLoad os regs img t) =
  set_InstrumentRanges t
    (InstrumentRanges t ++ [(IMG_LowAddress img, IMG_HighAddress img)]).
Proof.
  intros Hjit. unfold ImageLoad. rewrite Hjit.
  now destruct (RTN_FindByName img _).
Qed.

Lemma ImageLoad_not_jit os regs img t :
  IsJitImage os (IMG_Name img) = false ->
  fst (ImageLoad os regs img t) = t.
Proof.
  intros Hjit. unfold ImageLoad. rewrite Hjit.
  now destruct (RTN_FindByName img _).
Qed.

Lemma instrument_bbl_on_bbl regs bbl :
  exists ins, In ins (instrument_bbl regs bbl) /\ Insertion_bbl ins = Some bbl.
Proof.
  destruct regs; cbn; eexists; (split; [ left; reflexivity | reflexivity ]).
Qed.

(** C4: when some registered range holds the trace's start address,
    [Trace] inserts the counting calls on every basic block of the trace;
    when none does it inserts nothing; so a basic block of the trace
    receives a call exactly when the start address is in a registered
    range. *)
Theorem Trace_instruments_iff_registered regs (trace : TRACE) t :
  (registered (InstrumentRanges t) (TRACE_Address trace) ->
   Trace regs trace t = flat_map (instrument_bbl regs) (TRACE_Bbls trace)) /\
  (~ registered (InstrumentRanges t) (TRACE_Address trace) ->
   Trace regs trace t = []) /\
  (forall bbl, In bbl (TRACE_Bbls trace) ->
     ((exists ins, In ins (Trace regs trace t) /\ Insertion_bbl ins = Some bbl) <->
      registered (InstrumentRanges t) (TRACE_Address trace))).
Proof.
  unfold Trace.
  pose proof (in_some_range_spec (InstrumentRanges t) (TRACE_Address trace)) as Hspec.
  destruct (in_some_range (InstrumentRanges t) (TRACE_Address trace)).
  - assert (Hreg : registered (InstrumentRanges t) (TRACE_Address trace))
      by now apply Hspec.
    split; [ reflexivity | split; [ contradiction | ] ].
    intros bbl Hbbl. split; [ intros _; exact Hreg | intros _ ].
    destruct (instrument_bbl_on_bbl regs bbl) as (ins & Hins & Hon).
    exists ins. split; [ | exact Hon ].
    apply in_flat_map. now exists bbl.
  - assert (Hreg : ~ registered (InstrumentRanges t) (TRACE_Address trace)).
    { intros H. apply Hspec in H. discriminate. }
    split; [ contradiction | split; [ reflexivity | ] ].
    intros bbl _. split; [ intros (ins & [] & _) | contradiction ].
Qed.

(** C5: for an image that passes the heuristic, [ImageLoad] appends the
    pair of its low and high addresses to the registered ranges, the
    following [ImageUnload] of the same image takes one occurrence of that
    pair out, and the ranges are then the original ones as a multiset. *)
Theorem ImageLoad_ImageUnload_restores_ranges os regs img t :
  IsJitImage os (IMG_Name img) = true ->
  let pair := (IMG_LowAddress img, IMG_HighAddress img) in
  let loaded := fst (ImageLoad os regs img t) in
  let unloaded := ImageUnload os img loaded in
  InstrumentRanges loaded = InstrumentRanges t ++ [pair] /\
  (exists pre post,
     InstrumentRanges loaded = pre ++ pair :: post /\
     InstrumentRanges unloaded = pre ++ post) /\
  Permutation (InstrumentRanges unloaded) (InstrumentRanges t) /\
  (forall r, count_occ Range_eq_dec (InstrumentRanges unloaded) r =
             count_occ Range_eq_dec (InstrumentRanges t) r).
Proof.
  intros Hjit pair loaded unloaded.
  assert (Hload : InstrumentRanges loaded = InstrumentRanges t ++ [pair]).
  { unfold loaded. now rewrite ImageLoad_jit. }
  assert (Hin : In pair (InstrumentRanges loaded)).
  { rewrite Hload. apply in_or_app. right. now left. }
  destruct (ImageUnload_registered os img loaded Hjit Hin)
    as (pre & post & Heq & _ & Hun).
  fold pair in Heq. fold unloaded in Hun.
  assert (Hunl : InstrumentRanges unloaded = pre ++ post) by now rewrite Hun.
  assert (Hperm : Permutation (InstrumentRanges unloaded) (InstrumentRanges t)).
  { rewrite Hunl. apply Permutation_cons_inv with pair.
    transitivity (pre ++ pair :: post); [ apply Permutation_middle | ].
    rewrite <- Heq, Hload. symmetry. apply Permutation_cons_append. }
  split; [ exact Hload | ].
  split; [ now exists pre, post | ].
  split; [ exact Hperm | ].
  intros r. now apply Permutation_count_occ.
Qed.

(** C10, as the code has it: [ImageUnload] leaves the tool as it is when
    the image's pair is not registered, and also when the image does not
    pass the heuristic; for an image that passes it and whose pair is
    registered, the first occurrence of the pair is taken out and every
    other range, later copies of the pair included, stays. *)
Theorem ImageUnload_removes_first_of_jit_image os img t :
  let pair := (IMG_LowAddress img, IMG_HighAddress img) in
  (~ In pair (InstrumentRanges t) -> ImageUnload os img t = t) /\
  (IsJitImage os (IMG_Name img) = false -> ImageUnload os img t = t) /\
  (IsJitImage os (IMG_Name img) = true -> In pair (InstrumentRanges t) ->
   exists pre post,
     InstrumentRanges t = pre ++ pair :: post /\
     ~ In pair pre /\
     InstrumentRanges (ImageUnload os img t) = pre ++ post /\
     S (count_occ Range_eq_dec (InstrumentRanges (ImageUnload os img t)) pair) =
     count_occ Range_eq_dec (InstrumentRanges t) pair).
Proof.
  intros pair. split; [ apply ImageUnload_unregistered | split ].
  - intros Hjit. unfold ImageUnload. now rewrite Hjit.
  - intros Hjit Hin.
    destruct (ImageUnload_registered os img t Hjit Hin)
      as (pre & post & Heq & Hnin & Hun).
    fold pair in Heq, Hnin.
    exists pre, post. rewrite Hun. cbn [InstrumentRanges set_InstrumentRanges].
    repeat split; try assumption.
    rewrite Heq, !count_occ_app, count_occ_cons_eq by reflexivity. lia.
Qed.

(** C6: once [PIN_Init] has succeeded, if a claimed register is invalid
    (either of the two under [TARGET_IA32], the single one otherwise)
    [main] writes "Could not allocate storage for instruction count." and
    returns 1; if every claimed register is valid it registers its
    callbacks and starts the program, and whatever [PIN_Init] said it
    neither returns 1 nor writes that message. *)
Theorem main_exits_1_iff_not_claimed (tgt : Target) (h : Host) :
  let invalid :=
    match tgt with
    | TARGET_IA32 =>
        REG_valid (PIN_ClaimToolRegister h 0) = false \/
        REG_valid (PIN_ClaimToolRegister h 1) = false
    | TARGET_IA32E =>
        REG_valid (PIN_ClaimToolRegister h 0) = false
    end in
  let message := lit "Could not allocate storage for instruction count." ++ endl in
  (PIN_Init h = false -> invalid ->
   main REG_valid tgt h = Returned 1 message) /\
  (PIN_Init h = false -> ~ invalid ->
   exists regs callbacks, main REG_valid tgt h = Started regs initial_Tool callbacks) /\
  (~ invalid ->
   forall code cerr, main REG_valid tgt h = Returned code cerr ->
                     code <> 1 /\ cerr <> message).
Proof.
  cbv zeta.
  assert (Hcode : fst (Usage h) <> 1) by discriminate.
  assert (Hmsg : snd (Usage h) <>
                 lit "Could not allocate storage for instruction count." ++ endl)
    by (cbn; congruence).
  unfold main.
  destruct (PIN_Init h) eqn:Einit; destruct tgt;
    destruct (REG_valid (PIN_ClaimToolRegister h 0)) eqn:E0;
    try destruct (REG_valid (PIN_ClaimToolRegister h 1)) eqn:E1;
    cbn [andb negb];
    (split; [ | split ]);
    try discriminate;
    try (intros _ _; reflexivity);
    try (intros _ Hinv; exfalso; intuition congruence);
    try (intros _ _; do 2 eexists; reflexivity);
    try (intros _ code cerr [= <- <-]; now split);
    try (intros _ code cerr; discriminate);
    try (intros Hinv; exfalso; intuition congruence).
Qed.

End Callbacks.

(** ** Letter case *)

Lemma contains_find_first (pat s : std_string) :
  contains pat s <-> find_first pat s <> None.
Proof.
  split.
  - intros [i Hocc] Hnone. now apply (find_first_None _ _ Hnone i).
  - destruct (find_first pat s) as [i |] eqn:E; [ intros _ | congruence ].
    exists i. now apply find_first_Some.
Qed.

Lemma contains_single (c : ascii) (s : std_string) :
  contains [c] s <-> In c s.
Proof.
  split.
  - intros (i & pre & post & -> & _). apply in_or_app. right. now left.
  - intros Hin. apply in_split in Hin. destruct Hin as (pre & post & ->).
    exists (List.length pre), pre, post. now split.
Qed.

Lemma pathSep_single (os : Platform) :
  exists c, pathSep os = [c] /\ to_lower c = c /\
            forall x, to_lower x = c -> x = c.
Proof.
  destruct os; eexists; (split; [ reflexivity | split; [ reflexivity | ] ]);
    intros [[] [] [] [] [] [] [] []]; vm_compute; congruence.
Qed.

Lemma is_basename_to_lower (os : Platform) (name base : std_string) :
  is_basename os name base ->
  is_basename os (map to_lower name) (map to_lower base).
Proof.
  destruct (pathSep_single os) as (c & Hsep & Hfix & Honly).
  unfold is_basename. rewrite Hsep, !contains_single.
  intros [Hname Hnosep]. split.
  - destruct Hname as [-> | [dir ->]]; [ now left | right ].
    exists (map to_lower dir). rewrite !map_app. cbn [map]. now rewrite Hfix.
  - intros Hin. apply in_map_iff in Hin. destruct Hin as (x & Hx & Hin).
    apply Honly in Hx. now subst x.
Qed.

Section CaseSensitivity.

Context {REG : Type}.
Implicit Types (regs : @ToolRegs REG) (t : Tool) (img : IMG).

(** C9: a name whose basename has the letters of "clrjit" in some other
    case, but not the lower-case term itself, is rejected by
    [IsJitImage], though the same name in lower case is accepted; loading
    such an image leaves the tool, and so the registered ranges, as they
    were. *)
Theorem IsJitImage_is_case_sensitive os regs img t (base : std_string) :
  is_basename os (IMG_Name img) base ->
  contains_ignoring_case clrjit base ->
  ~ contains clrjit base ->
  IsJitImage os (IMG_Name img) = false /\
  IsJitImage os (map to_lower (IMG_Name img)) = true /\
  fst (ImageLoad os regs img t) = t.
Proof.
  intros Hbase Hci Hexact.
  assert (Hfalse : IsJitImage os (IMG_Name img) = false).
  { destruct (IsJitImage os (IMG_Name img)) eqn:E; [ | reflexivity ].
    apply (IsJitImage_basename _ _ _ Hbase) in E. contradiction. }
  split; [ exact Hfalse | split ].
  - apply (IsJitImage_basename _ _ _ (is_basename_to_lower _ _ _ Hbase)).
    exact Hci.
  - now apply ImageLoad_not_jit.
Qed.

End CaseSensitivity.

(** * Concrete runs *)

Example IsJitImage_linux :
  IsJitImage TARGET_LINUX (lit "/usr/share/dotnet/libclrjit.so") = true /\
  IsJitImage TARGET_LINUX (lit "/opt/clrjit/libcoreclr.so") = false /\
  IsJitImage TARGET_LINUX (lit "libclrjit.so") = true /\
  IsJitImage TARGET_LINUX (lit "/opt/build/") = false /\
  IsJitImage TARGET_LINUX (lit "/opt/libClrJit.so") = false.
Proof. repeat split. Qed.

Example IsJitImage_windows :
  IsJitImage TARGET_WINDOWS (lit "C:\dotnet\clrjit.dll") = true /\
  IsJitImage TARGET_WINDOWS (lit "C:\clrjit\coreclr.dll") = false /\
  IsJitImage TARGET_WINDOWS (lit "C:\dotnet\CLRJIT.DLL") = false.
Proof. repeat split. Qed.

Example Fini_prints :
  Fini false {| Lock := 0; TotalCount := 1234; InstrumentRanges := [] |} =
  lit "Instructions executed: 1234" ++ endl.
Proof. reflexivity. Qed.

Example count_block_carries :
  IA32.count_block (4294967295, 7) 3 = (2, 8) /\
  IA32.count_block (4294967295, 4294967295) 1 = (0, 0) /\
  IA32.count_block (10, 7) 3 = (13, 7).
Proof. repeat split. Qed.

(** The carry out of the low half, at a concrete block. *)
Lemma count_block_is_64bit_add_witness :
  Z.lor (Z.shiftl (snd (IA32.count_block (4294967295, 7) 3)) 32)
        (fst (IA32.count_block (4294967295, 7) 3)) =
  (Z.lor (Z.shiftl 7 32) 4294967295 + 3) mod 2 ^ 64.
Proof.
  assert (H1 : is_UINT32 4294967295) by (unfold is_UINT32; rewrite UINT32_modulus_eq; lia).
  assert (H2 : is_UINT32 7) by (unfold is_UINT32; rewrite UINT32_modulus_eq; lia).
  assert (H3 : is_UINT32 3) by (unfold is_UINT32; rewrite UINT32_modulus_eq; lia).
  exact (proj1 (proj2 (proj2 (proj2 (proj2
    (count_block_is_64bit_add 4294967295 7 3 H1 H2 H3)))))).
Defined.

Lemma ImageLoad_ImageUnload_restores_ranges_witness :
  Permutation
    (InstrumentRanges
       (ImageUnload TARGET_LINUX libclrjit
          (fst (ImageLoad TARGET_LINUX (Regs64 tt) libclrjit loaded_twice))))
    (InstrumentRanges loaded_twice).
Proof.
  exact (proj1 (proj2 (proj2
    (ImageLoad_ImageUnload_restores_ranges TARGET_LINUX (Regs64 tt) libclrjit
       loaded_twice eq_refl)))).
Defined.

(** C7 fails as stated: a thread count of 1 added to a total of 2^64 - 1
    wraps to 0. *)
Lemma ThreadFini_total_decreases_on_wrap :
  is_UINT64 (TotalCount after_full_thread) /\
  CONTEXT_ok (Regs64 tt) (fun _ => 1) /\
  ~ (TotalCount after_full_thread <=
     TotalCount (ThreadFini (Regs64 tt) 1 (fun _ => 1) after_full_thread)).
Proof.
  split; [ | split ].
  - vm_compute. split; congruence.
  - vm_compute. split; congruence.
  - vm_compute. intros H. now apply H.
Qed.

Lemma ThreadFini_monotone_iff_no_wrap_witness :
  TotalCount initial_Tool <=
  TotalCount (ThreadFini (Regs32 0%nat 1%nat) 1 halves_context initial_Tool).
Proof.
  assert (Ht : is_UINT64 (TotalCount initial_Tool))
    by (vm_compute; split; congruence).
  assert (Hc : CONTEXT_ok (Regs32 0%nat 1%nat) halves_context)
    by (vm_compute; repeat split; congruence).
  apply (proj2 (ThreadFini_monotone_iff_no_wrap (Regs32 0%nat 1%nat) 1
                  halves_context initial_Tool Ht Hc)).
  vm_compute. reflexivity.
Defined.

(** C10 fails as stated: the pair of [libc] is registered twice, yet
    unloading [libc], which does not pass the heuristic, takes no
    occurrence out. *)
Lemma ImageUnload_non_jit_image_removes_nothing :
  count_occ Range_eq_dec (InstrumentRanges loaded_twice)
    (IMG_LowAddress libc, IMG_HighAddress libc) = 2%nat /\
  ~ (exists pre post,
       InstrumentRanges loaded_twice =
         pre ++ (IMG_LowAddress libc, IMG_HighAddress libc) :: post /\
       InstrumentRanges (ImageUnload TARGET_LINUX libc loaded_twice) = pre ++ post).
Proof.
  split; [ reflexivity | ].
  intros (pre & post & Hbefore & Hafter).
  apply (f_equal (@List.length Range)) in Hbefore, Hafter.
  rewrite length_app in Hbefore, Hafter. cbn in Hbefore, Hafter. lia.
Qed.

Lemma ImageUnload_removes_first_of_jit_image_witness :
  ImageUnload TARGET_LINUX libc loaded_twice = loaded_twice /\
  InstrumentRanges (ImageUnload TARGET_LINUX libclrjit loaded_twice) = [(4096, 8192)].
Proof.
  pose proof (ImageUnload_removes_first_of_jit_image TARGET_LINUX libc loaded_twice)
    as (_ & Hnot & _).
  pose proof (ImageUnload_removes_first_of_jit_image TARGET_LINUX libclrjit loaded_twice)
    as (_ & _ & Hjit).
  split; [ exact (Hnot eq_refl) | ].
  destruct (Hjit eq_refl (or_introl eq_refl)) as (pre & post & Heq & Hnin & Hres & _).
  destruct pre as [| p pre].
  - injection Heq as <-. exact Hres.
  - exfalso. apply Hnin. injection Heq as <- _. now left.
Defined.

Lemma Trace_instruments_iff_registered_witness :
  Trace (Regs64 tt)
    {| TRACE_Address := 5000;
       TRACE_Bbls := [{| BBL_Address := 5000; BBL_NumIns := 4 |}] |}
    loaded_twice =
  [BBL_InsertCall {| BBL_Address := 5000; BBL_NumIns := 4 |} IPOINT_ANYWHERE
     AFUN_DoCount [IARG_REG_VALUE tt; IARG_RETURN_REGS tt; IARG_ADDRINT 4]] /\
  Trace (Regs64 tt)
    {| TRACE_Address := 9000;
       TRACE_Bbls := [{| BBL_Address := 9000; BBL_NumIns := 4 |}] |}
    loaded_twice = [].
Proof.
  split.
  - apply (proj1 (Trace_instruments_iff_registered (Regs64 tt)
        {| TRACE_Address := 5000;
           TRACE_Bbls := [{| BBL_Address := 5000; BBL_NumIns := 4 |}] |}
        loaded_twice)).
    exists 4096, 8192. cbn. split; [ now left | lia ].
  - apply (proj1 (proj2 (Trace_instruments_iff_registered (Regs64 tt)
        {| TRACE_Address := 9000;
           TRACE_Bbls := [{| BBL_Address := 9000; BBL_NumIns := 4 |}] |}
        loaded_twice))).
    intros (lo & hi & Hin & Hb). cbn in Hin, Hb.
    destruct Hin as [[= <- <-] | [[= <- <-] | []]]; lia.
Defined.

Lemma main_exits_1_iff_not_claimed_witness :
  main (Nat.eqb 0) TARGET_IA32 one_register_host =
    Returned 1 (lit "Could not allocate storage for instruction count." ++ endl) /\
  exists regs callbacks,
    main (Nat.eqb 0) TARGET_IA32E one_register_host =
      Started regs initial_Tool callbacks.
Proof.
  split.
  - apply (proj1 (main_exits_1_iff_not_claimed (Nat.eqb 0) TARGET_IA32
                    one_register_host)).
    + reflexivity.
    + right. reflexivity.
  - apply (proj1 (proj2 (main_exits_1_iff_not_claimed (Nat.eqb 0) TARGET_IA32E
                           one_register_host))).
    + reflexivity.
    + discriminate.
Defined.

Lemma IsJitImage_is_case_sensitive_witness :
  IsJitImage TARGET_LINUX (IMG_Name libClrJit_upper) = false /\
  IsJitImage TARGET_LINUX (map to_lower (IMG_Name libClrJit_upper)) = true /\
  fst (ImageLoad TARGET_LINUX (Regs64 tt) libClrJit_upper loaded_twice) = loaded_twice.
Proof.
  apply (IsJitImage_is_case_sensitive TARGET_LINUX (Regs64 tt) libClrJit_upper
           loaded_twice (lit "libClrJit.so")).
  - split.
    + right. exists (lit "/usr/share/dotnet"). reflexivity.
    + intros H. apply contains_find_first in H. apply H. reflexivity.
  - apply contains_find_first. vm_compute. discriminate.
  - intros H. apply contains_find_first in H. apply H. reflexivity.
Defined.

(** * Further properties *)

(** ** Counting over many blocks *)

Lemma count_block_eq (low high n : Z) :
  IA32.count_block (low, high) n =
  (IA32.DoCountLow low n,
   if IA32.DoCountLow low n <? n then IA32.DoCountHigh high else high).
Proof.
  unfold IA32.count_block, IA32.OverflowedLow.
  now destruct (IA32.DoCountLow low n <? n).
Qed.

Lemma count_blocks_spec (ns : list Z) : forall low high,
  is_UINT32 low -> is_UINT32 high -> Forall is_UINT32 ns ->
  is_UINT32 (fst (count_blocks (low, high) ns)) /\
  is_UINT32 (snd (count_blocks (low, high) ns)) /\
  IA32.ReadInsCount (fst (count_blocks (low, high) ns))
                    (snd (count_blocks (low, high) ns)) =
  to_UINT64 (IA32.ReadInsCount low high + sum ns).
Proof.
  induction ns as [| n ns IH]; intros low high Hl Hh Hns; cbn [count_blocks fold_left sum fold_right fst snd].
  - repeat split; try apply Hl; try apply Hh.
    rewrite Z.add_0_r. unfold to_UINT64. symmetry. apply Z.mod_small.
    now apply ReadInsCount_range.
  - inversion Hns as [| n' ns' Hn Hns']; subst.
    rewrite count_block_eq.
    destruct (split_add low high n Hl Hh Hn) as (Hl' & Hh' & Hsum).
    cbv zeta in Hl', Hh', Hsum.
    specialize (IH _ _ Hl' Hh' Hns'). unfold count_blocks in IH.
    destruct IH as (IHl & IHh & IHsum).
    repeat split; try apply IHl; try apply IHh.
    rewrite IHsum. rewrite (ReadInsCount_sum _ _ Hl' Hh'), Hsum.
    rewrite (ReadInsCount_sum _ _ Hl Hh).
    unfold to_UINT64. rewrite Z.add_mod_idemp_l by discriminate.
    fold (sum ns). f_equal. lia.
Qed.

Lemma DoCount_blocks_spec (ns : list Z) : forall count,
  to_UINT64 (DoCount_blocks count ns) = to_UINT64 (count + sum ns).
Proof.
  induction ns as [| n ns IH]; intros count; cbn [DoCount_blocks fold_left sum fold_right].
  - now rewrite Z.add_0_r.
  - unfold DoCount_blocks in IH. rewrite IH. unfold IA32E.DoCount, to_UINT64.
    rewrite Z.add_mod_idemp_l by discriminate.
    fold (sum ns). f_equal. lia.
Qed.

Lemma DoCount_blocks_range (ns : list Z) : forall count,
  is_UINT64 count -> is_UINT64 (DoCount_blocks count ns).
Proof.
  induction ns as [| n ns IH]; intros count Hc; cbn [DoCount_blocks fold_left].
  - exact Hc.
  - apply IH. apply Z.mod_pos_bound. reflexivity.
Qed.

(** X1: over any sequence of blocks with 32-bit counts, the two halves
    stay 32-bit values and read back as the starting 64-bit value plus the
    sum of the counts, modulo 2^64. *)
Theorem count_blocks_is_64bit_sum (low high : Z) (ns : list Z) :
  is_UINT32 low -> is_UINT32 high -> Forall is_UINT32 ns ->
  is_UINT32 (fst (count_blocks (low, high) ns)) /\
  is_UINT32 (snd (count_blocks (low, high) ns)) /\
  IA32.ReadInsCount (fst (count_blocks (low, high) ns))
                    (snd (count_blocks (low, high) ns)) =
  (IA32.ReadInsCount low high + sum ns) mod 2 ^ 64.
Proof.
  intros Hl Hh Hns. now apply count_blocks_spec.
Qed.

(** X2: the two targets count alike: from the same starting value, the
    halves of the 32-bit target read back as the single register of the
    64-bit target after the same blocks. *)
Theorem count_blocks_agrees_with_DoCount (low high : Z) (ns : list Z) :
  is_UINT32 low -> is_UINT32 high -> Forall is_UINT32 ns ->
  IA32.ReadInsCount (fst (count_blocks (low, high) ns))
                    (snd (count_blocks (low, high) ns)) =
  IA32E.ReadInsCount (DoCount_blocks (IA32.ReadInsCount low high) ns).
Proof.
  intros Hl Hh Hns.
  destruct (count_blocks_spec ns low high Hl Hh Hns) as (_ & _ & ->).
  unfold IA32E.ReadInsCount.
  rewrite <- DoCount_blocks_spec. unfold to_UINT64. apply Z.mod_small.
  apply DoCount_blocks_range. now apply ReadInsCount_range.
Qed.

(** X3: [ReadInsCount] of the 32-bit target loses nothing: the halves are
    the remainder and the quotient of the value by 2^32, and every 64-bit
    value is read from its own halves. *)
Theorem ReadInsCount_halves (low high v : Z) :
  (is_UINT32 low -> is_UINT32 high ->
   IA32.ReadInsCount low high mod 2 ^ 32 = low /\
   IA32.ReadInsCount low high / 2 ^ 32 = high) /\
  (is_UINT64 v -> IA32.ReadInsCount (v mod 2 ^ 32) (v / 2 ^ 32) = v).
Proof.
  change (2 ^ 32) with UINT32_modulus. split.
  - intros Hl Hh. rewrite ReadInsCount_sum by assumption.
    unfold is_UINT32 in *. split.
    + rewrite Z.add_comm, Z.mod_add by discriminate. now apply Z.mod_small.
    + rewrite Z.add_comm, Z.div_add by discriminate.
      rewrite Z.div_small by assumption. reflexivity.
  - intros Hv. unfold is_UINT64 in Hv. rewrite UINT64_split in Hv.
    assert (Hm : 0 < UINT32_modulus) by reflexivity.
    rewrite ReadInsCount_sum.
    + pose proof (Z.div_mod v UINT32_modulus). lia.
    + apply Z.mod_pos_bound. exact Hm.
    + split; [ apply Z.div_pos; lia | apply Z.div_lt_upper_bound; lia ].
Qed.

(** ** The life of a thread *)

Section Threads.

Context {REG : Type}.
Variable REG_eq_dec : forall r r' : REG, {r = r'} + {r <> r'}.
Implicit Types (regs : @ToolRegs REG) (ctxt : @CONTEXT REG) (t : Tool) (bbl : BBL).

Lemma PIN_SetContextReg_same ctxt (r : REG) (v : Z) :
  PIN_SetContextReg REG_eq_dec ctxt r v r = v.
Proof. unfold PIN_SetContextReg. now destruct (REG_eq_dec r r). Qed.

Lemma PIN_SetContextReg_other ctxt (r r' : REG) (v : Z) :
  r' <> r -> PIN_SetContextReg REG_eq_dec ctxt r v r' = ctxt r'.
Proof. unfold PIN_SetContextReg. now destruct (REG_eq_dec r' r). Qed.

Lemma ThreadStart_thread_count regs ctxt :
  CONTEXT_ok regs (ThreadStart REG_eq_dec regs ctxt) /\
  thread_count regs (ThreadStart REG_eq_dec regs ctxt) = 0.
Proof.
  assert (H0 : is_UINT32 0) by (split; [ reflexivity | reflexivity ]).
  assert (H0' : is_UINT64 0) by (split; [ reflexivity | reflexivity ]).
  destruct regs as [lo hi | r]; cbn [ThreadStart thread_count CONTEXT_ok].
  - rewrite PIN_SetContextReg_same.
    destruct (REG_eq_dec lo hi) as [-> | Hne].
    + rewrite PIN_SetContextReg_same. repeat split; apply H0.
    + rewrite PIN_SetContextReg_other, PIN_SetContextReg_same by assumption.
      repeat split; apply H0.
  - rewrite PIN_SetContextReg_same. split; [ exact H0' | reflexivity ].
Qed.

(** X4: [ThreadStart] leaves the thread with a count of zero in its tool
    registers, whatever they held, and changes no other register. *)
Theorem ThreadStart_resets_count regs ctxt :
  thread_count regs (ThreadStart REG_eq_dec regs ctxt) = 0 /\
  CONTEXT_ok regs (ThreadStart REG_eq_dec regs ctxt) /\
  forall r, ~ is_tool_reg regs r ->
    PIN_GetContextReg (ThreadStart REG_eq_dec regs ctxt) r = PIN_GetContextReg ctxt r.
Proof.
  destruct (ThreadStart_thread_count regs ctxt) as [Hok Hzero].
  split; [ exact Hzero | split; [ exact Hok | ] ].
  intros r Hr. unfold PIN_GetContextReg.
  destruct regs as [lo hi | r0]; cbn [ThreadStart is_tool_reg] in *.
  - rewrite !PIN_SetContextReg_other; [ reflexivity | | ]; intros ->; tauto.
  - rewrite PIN_SetContextReg_other; [ reflexivity | exact Hr ].
Qed.

(** Running the calls inserted on a block is [count_block] on the halves,
    [DoCount] on the single register. *)
Lemma exec_bbl_Regs32 (lo hi : REG) ctxt bbl :
  lo <> hi ->
  let ctxt' := exec_bbl REG_eq_dec (Regs32 lo hi) ctxt bbl in
  (ctxt' lo, ctxt' hi) = IA32.count_block (ctxt lo, ctxt hi) (BBL_NumIns bbl) /\
  forall r, r <> lo -> r <> hi -> ctxt' r = ctxt r.
Proof.
  intros Hne. cbv zeta.
  assert (Hne' : hi <> lo) by congruence.
  unfold exec_bbl. cbn [instrument_bbl run_insertions].
  set (ctxt1 := PIN_SetContextReg REG_eq_dec ctxt lo
                  (IA32.DoCountLow (ctxt lo) (BBL_NumIns bbl))).
  change (analysis_call REG_eq_dec AFUN_DoCountLow _ ctxt) with ctxt1.
  change (analysis_call REG_eq_dec AFUN_DoCountHigh _ ctxt1)
    with (PIN_SetContextReg REG_eq_dec ctxt1 hi (IA32.DoCountHigh (ctxt1 hi))).
  cbn [IARG_values AFUN_apply PIN_GetContextReg].
  assert (H1lo : ctxt1 lo = IA32.DoCountLow (ctxt lo) (BBL_NumIns bbl))
    by apply PIN_SetContextReg_same.
  assert (H1hi : ctxt1 hi = ctxt hi)
    by now apply PIN_SetContextReg_other.
  unfold IA32.count_block, PIN_GetContextReg. rewrite H1hi, H1lo.
  destruct (IA32.OverflowedLow _ _ =? 0); cbn [negb].
  - split; [ now rewrite H1lo, H1hi | ].
    intros r Hr _. now apply PIN_SetContextReg_other.
  - rewrite PIN_SetContextReg_same, PIN_SetContextReg_other, H1lo by assumption.
    split; [ reflexivity | ].
    intros r Hr Hr'. rewrite PIN_SetContextReg_other by assumption.
    now apply PIN_SetContextReg_other.
Qed.

Lemma exec_bbl_Regs64 (r0 : REG) ctxt bbl :
  let ctxt' := exec_bbl REG_eq_dec (Regs64 r0) ctxt bbl in
  ctxt' r0 = IA32E.DoCount (ctxt r0) (BBL_NumIns bbl) /\
  forall r, r <> r0 -> ctxt' r = ctxt r.
Proof.
  cbv zeta. unfold exec_bbl. cbn [instrument_bbl run_insertions].
  unfold analysis_call.
  cbn [IARG_values IARG_return AFUN_apply PIN_GetContextReg].
  split; [ apply PIN_SetContextReg_same | ].
  intros r Hr. now apply PIN_SetContextReg_other.
Qed.

Lemma exec_bbl_thread_count regs ctxt bbl :
  ToolRegs_distinct regs -> CONTEXT_ok regs ctxt -> BBL_ok regs bbl ->
  CONTEXT_ok regs (exec_bbl REG_eq_dec regs ctxt bbl) /\
  thread_count regs (exec_bbl REG_eq_dec regs ctxt bbl) =
  to_UINT64 (thread_count regs ctxt + BBL_NumIns bbl).
Proof.
  destruct regs as [lo hi | r0]; cbn [ToolRegs_distinct CONTEXT_ok BBL_ok thread_count].
  - intros Hne [Hl Hh] Hn.
    destruct (exec_bbl_Regs32 lo hi ctxt bbl Hne) as [Hpair _].
    cbv zeta in Hpair. rewrite count_block_eq in Hpair.
    injection Hpair as Hlo Hhi. rewrite Hlo, Hhi.
    destruct (split_add _ _ _ Hl Hh Hn) as (Hl' & Hh' & Hsum).
    cbv zeta in Hl', Hh', Hsum.
    split; [ now split | ].
    now rewrite (ReadInsCount_sum _ _ Hl' Hh'), Hsum, (ReadInsCount_sum _ _ Hl Hh).
  - intros _ Hc _.
    destruct (exec_bbl_Regs64 r0 ctxt bbl) as [Hr _].
    cbv zeta in Hr. rewrite Hr. unfold IA32E.ReadInsCount, IA32E.DoCount.
    split; [ apply Z.mod_pos_bound; reflexivity | reflexivity ].
Qed.

Lemma exec_bbls_thread_count regs (bbls : list BBL) : forall ctxt,
  ToolRegs_distinct regs -> CONTEXT_ok regs ctxt -> Forall (BBL_ok regs) bbls ->
  CONTEXT_ok regs (exec_bbls REG_eq_dec regs bbls ctxt) /\
  to_UINT64 (thread_count regs (exec_bbls REG_eq_dec regs bbls ctxt)) =
  to_UINT64 (thread_count regs ctxt + sum (map BBL_NumIns bbls)).
Proof.
  induction bbls as [| bbl bbls IH]; intros ctxt Hd Hc Hb;
    cbn [exec_bbls fold_left map sum fold_right].
  - split; [ exact Hc | now rewrite Z.add_0_r ].
  - inversion Hb as [| b bs Hbbl Hbbls]; subst.
    destruct (exec_bbl_thread_count regs ctxt bbl Hd Hc Hbbl) as [Hc' Hcount].
    destruct (IH _ Hd Hc' Hbbls) as [Hc'' Hsum].
    unfold exec_bbls in Hc'', Hsum.
    split; [ exact Hc'' | ].
    rewrite Hsum, Hcount. unfold to_UINT64.
    rewrite Z.add_mod_idemp_l by discriminate.
    fold (sum (map BBL_NumIns bbls)). f_equal. lia.
Qed.

(** X5: under the host's rules for inserted calls, running a thread
    through the calls [Trace] puts on a block adds the block's instruction
    count to the thread's count modulo 2^64, keeps the tool registers
    [ADDRINT] values and changes no other register. *)
Theorem exec_bbl_adds_NumIns regs ctxt bbl :
  ToolRegs_distinct regs -> CONTEXT_ok regs ctxt -> BBL_ok regs bbl ->
  thread_count regs (exec_bbl REG_eq_dec regs ctxt bbl) =
    (thread_count regs ctxt + BBL_NumIns bbl) mod 2 ^ 64 /\
  CONTEXT_ok regs (exec_bbl REG_eq_dec regs ctxt bbl) /\
  forall r, ~ is_tool_reg regs r -> exec_bbl REG_eq_dec regs ctxt bbl r = ctxt r.
Proof.
  intros Hd Hc Hb.
  destruct (exec_bbl_thread_count regs ctxt bbl Hd Hc Hb) as [Hc' Hcount].
  split; [ exact Hcount | split; [ exact Hc' | ] ].
  intros r Hr. destruct regs as [lo hi | r0]; cbn [is_tool_reg ToolRegs_distinct] in *.
  - destruct (exec_bbl_Regs32 lo hi ctxt bbl Hd) as [_ Hframe].
    apply Hframe; intros ->; tauto.
  - destruct (exec_bbl_Regs64 r0 ctxt bbl) as [_ Hframe]. now apply Hframe.
Qed.

(** X6: a thread that starts, runs through instrumented blocks and exits
    adds the sum of the blocks' instruction counts to [TotalCount], modulo
    2^64, whatever its registers held when it started. *)
Theorem thread_life_adds_instructions regs ctxt (bbls : list BBL) (tid : Z) t :
  ToolRegs_distinct regs -> Forall (BBL_ok regs) bbls ->
  TotalCount
    (ThreadFini regs tid
       (exec_bbls REG_eq_dec regs bbls (ThreadStart REG_eq_dec regs ctxt)) t) =
  (TotalCount t + sum (map BBL_NumIns bbls)) mod 2 ^ 64.
Proof.
  intros Hd Hb.
  destruct (ThreadStart_thread_count regs ctxt) as [Hok Hzero].
  destruct (exec_bbls_thread_count regs bbls _ Hd Hok Hb) as [_ Hsum].
  rewrite Hzero, Z.add_0_l in Hsum.
  rewrite ThreadFini_TotalCount. unfold to_UINT64 in *.
  change (2 ^ 64) with UINT64_modulus.
  rewrite <- Z.add_mod_idemp_r, Hsum, Z.add_mod_idemp_r by discriminate.
  reflexivity.
Qed.

End Threads.

(** ** The shape of what [Trace] inserts *)

Section TraceShape.

Context {REG : Type}.
Implicit Types (regs : @ToolRegs REG) (t : Tool) (bbl : BBL)
  (ins : @Insertion REG).

Lemma flat_map_instrument_if_then regs (bbls : list BBL) :
  forall (pre post : list Insertion) bbl at_ f args,
  flat_map (instrument_bbl regs) bbls =
    pre ++ BBL_InsertIfCall bbl at_ f args :: post ->
  exists f' args' post',
    post = BBL_InsertThenCall bbl IPOINT_BEFORE f' args' :: post'.
Proof.
  induction bbls as [| b bbls IH]; intros pre post bbl at_ f args Heq;
    cbn [flat_map] in Heq.
  - destruct pre; discriminate.
  - destruct regs as [lo hi | r0]; cbn [instrument_bbl app] in Heq.
    + destruct pre as [| x [| y [| z pre]]]; cbn [app] in Heq.
      * congruence.
      * inversion Heq; subst. now do 3 eexists.
      * congruence.
      * inversion Heq as [[Hx Hy Hz Hrest]].
        now apply (IH pre post bbl at_ f args).
    + destruct pre as [| x pre]; cbn [app] in Heq.
      * congruence.
      * inversion Heq as [[Hx Hrest]].
        now apply (IH pre post bbl at_ f args).
Qed.

Lemma flat_map_instrument_on_bbl regs (bbls : list BBL) ins :
  In ins (flat_map (instrument_bbl regs) bbls) ->
  exists bbl, In bbl bbls /\ Insertion_bbl ins = Some bbl.
Proof.
  intros Hin. apply in_flat_map in Hin. destruct Hin as (bbl & Hbbl & Hins).
  exists bbl. split; [ exact Hbbl | ].
  destruct regs; cbn in Hins; intuition (subst; reflexivity).
Qed.

(** X7: every call [Trace] inserts is attached to a basic block of the
    trace it was given, never to a routine or to another block, and every
    if-call it inserts is followed at once by a then-call on the same
    block, as the host requires. *)
Theorem Trace_insertions_well_formed regs (trace : TRACE) t :
  (forall ins, In ins (Trace regs trace t) ->
     exists bbl, In bbl (TRACE_Bbls trace) /\ Insertion_bbl ins = Some bbl) /\
  (forall pre post bbl at_ f args,
     Trace regs trace t = pre ++ BBL_InsertIfCall bbl at_ f args :: post ->
     exists f' args' post',
       post = BBL_InsertThenCall bbl IPOINT_BEFORE f' args' :: post').
Proof.
  unfold Trace.
  destruct (in_some_range (InstrumentRanges t) (TRACE_Address trace)).
  - split.
    + intros ins. apply flat_map_instrument_on_bbl.
    + intros pre post bbl at_ f args. apply flat_map_instrument_if_then.
  - split; [ intros ins [] | ].
    intros pre post bbl at_ f args Heq. destruct pre; discriminate.
Qed.

End TraceShape.

(** ** The ranges follow the loaded images *)

Lemma registered_Permutation (l l' : list Range) (addr : Z) :
  Permutation l l' -> registered l addr -> registered l' addr.
Proof.
  intros Hperm (lo & hi & Hin & Hb). exists lo, hi.
  split; [ now apply (Permutation_in _ Hperm) | exact Hb ].
Qed.

Lemma jit_ranges_app (os : Platform) (l1 l2 : list IMG) :
  jit_ranges os (l1 ++ l2) = jit_ranges os l1 ++ jit_ranges os l2.
Proof. unfold jit_ranges. now rewrite filter_app, map_app. Qed.

Lemma jit_ranges_cons (os : Platform) (img : IMG) (l : list IMG) :
  jit_ranges os (img :: l) =
  if IsJitImage os (IMG_Name img)
  then (IMG_LowAddress img, IMG_HighAddress img) :: jit_ranges os l
  else jit_ranges os l.
Proof.
  unfold jit_ranges. cbn [filter].
  now destruct (IsJitImage os (IMG_Name img)).
Qed.

Lemma registered_jit_ranges (os : Platform) (l : list IMG) (addr : Z) :
  registered (jit_ranges os l) addr <->
  exists img, In img l /\ IsJitImage os (IMG_Name img) = true /\
              IMG_LowAddress img <= addr /\ addr < IMG_HighAddress img.
Proof.
  unfold registered, jit_ranges. split.
  - intros (lo & hi & Hin & Hb). apply in_map_iff in Hin.
    destruct Hin as (img & [= <- <-] & Hin). apply filter_In in Hin.
    exists img. tauto.
  - intros (img & Hin & Hjit & Hb).
    exists (IMG_LowAddress img), (IMG_HighAddress img). split; [ | exact Hb ].
    apply in_map_iff. exists img. split; [ reflexivity | ].
    apply filter_In. now split.
Qed.

Section Histories.

Context {REG : Type}.
Implicit Types (regs : @ToolRegs REG) (t : Tool) (events : list (@Event REG)).

Lemma history_ranges os regs (before after : list IMG) events :
  history before events after ->
  forall t,
  Permutation (InstrumentRanges t) (jit_ranges os before) ->
  Permutation (InstrumentRanges (run os regs events t)) (jit_ranges os after).
Proof.
  induction 1 as [l | l img events l' _ IH | l1 l2 img events l' _ IH
                  | l tid ctxt events l' _ IH | l trace events l' _ IH];
    intros t Hperm; cbn [run fold_left callback].
  - exact Hperm.
  - apply IH. rewrite jit_ranges_cons.
    destruct (IsJitImage os (IMG_Name img)) eqn:Hjit.
    + rewrite ImageLoad_jit by exact Hjit. cbn [InstrumentRanges set_InstrumentRanges].
      rewrite <- Hperm. symmetry. apply Permutation_cons_append.
    + now rewrite ImageLoad_not_jit by exact Hjit.
  - apply IH. rewrite jit_ranges_app. rewrite jit_ranges_app, jit_ranges_cons in Hperm.
    destruct (IsJitImage os (IMG_Name img)) eqn:Hjit.
    + assert (Hin : In (IMG_LowAddress img, IMG_HighAddress img) (InstrumentRanges t)).
      { apply (Permutation_in _ (Permutation_sym Hperm)).
        apply in_or_app. right. now left. }
      destruct (ImageUnload_registered os img t Hjit Hin)
        as (pre & post & Heq & _ & ->).
      cbn [InstrumentRanges set_InstrumentRanges].
      rewrite Heq in Hperm. now apply Permutation_app_inv in Hperm.
    + unfold ImageUnload. now rewrite Hjit.
  - apply IH. now rewrite ThreadFini_InstrumentRanges.
  - now apply IH.
Qed.

(** X8: through any run in which only loaded images are unloaded, the
    registered ranges are, as a multiset, the address pairs of the images
    that are loaded at that moment and pass the heuristic. *)
Theorem ranges_reflect_loaded_jit_images os regs events (loaded : list IMG) :
  history [] events loaded ->
  Permutation (InstrumentRanges (run os regs events initial_Tool))
              (jit_ranges os loaded).
Proof.
  intros Hh. apply (history_ranges os regs [] loaded events Hh initial_Tool).
  reflexivity.
Qed.

(** X9: after such a run, [Trace] inserts its calls on a trace exactly
    when the start address of the trace lies between the low address
    (included) and the high address (excluded) of an image that is loaded
    at that moment and passes the heuristic. *)
Theorem Trace_instruments_loaded_jit_code os regs events (loaded : list IMG)
  (trace : TRACE) :
  history [] events loaded ->
  let t := run os regs events initial_Tool in
  let in_jit :=
    exists img, In img loaded /\ IsJitImage os (IMG_Name img) = true /\
                IMG_LowAddress img <= TRACE_Address trace /\
                TRACE_Address trace < IMG_HighAddress img in
  (in_jit ->
   Trace regs trace t = flat_map (instrument_bbl regs) (TRACE_Bbls trace)) /\
  (~ in_jit -> Trace regs trace t = []).
Proof.
  intros Hh t in_jit.
  pose proof (history_ranges os regs [] loaded events Hh initial_Tool
                (Permutation_refl _)) as Hperm.
  fold t in Hperm.
  assert (Hiff : in_some_range (InstrumentRanges t) (TRACE_Address trace) = true
                 <-> in_jit).
  { rewrite in_some_range_spec. unfold in_jit.
    rewrite <- registered_jit_ranges. split; apply registered_Permutation.
    - exact Hperm.
    - now symmetry. }
  unfold Trace.
  destruct (in_some_range (InstrumentRanges t) (TRACE_Address trace)).
  - split; [ reflexivity | ]. intros Hn. destruct Hn. now apply Hiff.
  - split; [ | reflexivity ]. intros Hi. apply Hiff in Hi. discriminate.
Qed.

Lemma run_TotalCount os regs events : forall t,
  to_UINT64 (TotalCount (run os regs events t)) =
  to_UINT64 (TotalCount t + sum (exit_counts regs events)) /\
  (is_UINT64 (TotalCount t) -> is_UINT64 (TotalCount (run os regs events t))) /\
  (Lock t = 0 -> Lock (run os regs events t) = 0).
Proof.
  induction events as [| e events IH]; intros t; cbn [run fold_left exit_counts].
  - cbn [sum fold_right]. rewrite Z.add_0_r. tauto.
  - specialize (IH (callback os regs t e)). unfold run in IH.
    destruct IH as (IHsum & IHrange & IHlock).
    destruct e as [tid ctxt | img | img | trace]; cbn [callback] in *.
    + rewrite ThreadFini_TotalCount in IHsum, IHrange.
      rewrite ThreadFini_Lock in IHlock.
      cbn [sum fold_right]. fold (sum (exit_counts regs events)).
      split; [ | split ].
      * rewrite IHsum. unfold to_UINT64.
        rewrite Z.add_mod_idemp_l by discriminate. f_equal. lia.
      * intros _. apply IHrange. apply to_UINT64_range.
      * intros _. now apply IHlock.
    + assert (Hframe : TotalCount (fst (ImageLoad os regs img t)) = TotalCount t /\
                       Lock (fst (ImageLoad os regs img t)) = Lock t).
      { unfold ImageLoad.
        destruct (IsJitImage os (IMG_Name img)), (RTN_FindByName img _); now split. }
      destruct Hframe as [HT HL]. rewrite HT in IHsum, IHrange. rewrite HL in IHlock.
      tauto.
    + assert (Hframe : TotalCount (ImageUnload os img t) = TotalCount t /\
                       Lock (ImageUnload os img t) = Lock t).
      { unfold ImageUnload.
        destruct (IsJitImage os (IMG_Name img)); [ | now split ].
        destruct (std_find _ _); now split. }
      destruct Hframe as [HT HL]. rewrite HT in IHsum, IHrange. rewrite HL in IHlock.
      tauto.
    + tauto.
Qed.

(** X10: image loads, image unloads and traces never disturb the count:
    after any run of the callbacks from the initial state, [TotalCount] is
    the sum modulo 2^64 of the counts of the threads that exited, wherever
    the other events fall between the exits, and the lock is free. *)
Theorem run_TotalCount_is_sum_of_exit_counts os regs events :
  TotalCount (run os regs events initial_Tool) =
    (sum (exit_counts regs events)) mod 2 ^ 64 /\
  Lock (run os regs events initial_Tool) = 0.
Proof.
  destruct (run_TotalCount os regs events initial_Tool) as (Hsum & Hrange & Hlock).
  split; [ | now apply Hlock ].
  cbn [TotalCount initial_Tool] in Hsum, Hrange.
  unfold to_UINT64 in Hsum. rewrite Z.mod_small in Hsum; [ exact Hsum | ].
  apply Hrange. split; [ reflexivity | reflexivity ].
Qed.

End Histories.

(** ** More on the heuristic *)

Lemma bool_eq_iff (a b : bool) : (a = true <-> b = true) -> a = b.
Proof. destruct a, b; intuition congruence. Qed.

(** X11: the directory part of a name plays no role: a name made of any
    directory, a separator and a separator-free file name is judged as the
    file name alone is. *)
Theorem IsJitImage_ignores_directory (os : Platform) (dir base : std_string) :
  ~ contains (pathSep os) base ->
  IsJitImage os (dir ++ pathSep os ++ base) = IsJitImage os base.
Proof.
  intros Hnosep. apply bool_eq_iff.
  rewrite (IsJitImage_basename os (dir ++ pathSep os ++ base) base).
  - rewrite (IsJitImage_basename os base base); [ reflexivity | ].
    split; [ now left | exact Hnosep ].
  - split; [ right; now exists dir | exact Hnosep ].
Qed.

(** X12: a name whose basename has fewer than six characters is never
    the JIT: in particular the empty name and any name that ends with a
    separator. *)
Theorem IsJitImage_short_basename (os : Platform) (name base : std_string) :
  is_basename os name base -> (List.length base < 6)%nat ->
  IsJitImage os name = false.
Proof.
  intros Hbase Hlen.
  destruct (IsJitImage os name) eqn:E; [ exfalso | reflexivity ].
  apply (IsJitImage_basename os name base Hbase) in E.
  destruct E as [i Hocc]. apply occurs_at_length in Hocc.
  change (List.length clrjit) with 6%nat in Hocc. lia.
Qed.

(** ** More on the image callbacks *)

Lemma std_string_eqb_eq (a b : std_string) : std_string_eqb a b = true <-> a = b.
Proof.
  unfold std_string_eqb. destruct (list_eq_dec ascii_dec a b); intuition congruence.
Qed.

Lemma RTN_FindByName_spec (img : IMG) (name : std_string) :
  (In name (IMG_Rtns img) ->
   RTN_FindByName img name = Some {| RTN_Img := IMG_Name img; RTN_Name := name |}) /\
  (~ In name (IMG_Rtns img) -> RTN_FindByName img name = None).
Proof.
  unfold RTN_FindByName.
  destruct (existsb (std_string_eqb name) (IMG_Rtns img)) eqn:E.
  - split; [ reflexivity | ]. intros Hnin. destruct Hnin.
    apply existsb_exists in E. destruct E as (x & Hin & Hx).
    apply std_string_eqb_eq in Hx. now subst x.
  - split; [ | reflexivity ]. intros Hin.
    assert (existsb (std_string_eqb name) (IMG_Rtns img) = true).
    { apply existsb_exists. exists name. split; [ exact Hin | ].
      now apply std_string_eqb_eq. }
    congruence.
Qed.

Section ImageCallbacks.

Context {REG : Type}.
Implicit Types (regs : @ToolRegs REG) (t : Tool) (img : IMG).

(** X13: [ImageLoad] asks for the read-out call before
    [Instrumentor_GetInsCount] in every image that has a routine of that
    name, whether or not the image passes the heuristic, and asks for
    nothing in the other images; the call receives the first argument of
    the routine and then the tool registers in the order of the parameters
    of [ReadInsCount]. *)
Theorem ImageLoad_hooks_GetInsCount os regs img t :
  (In (lit "Instrumentor_GetInsCount") (IMG_Rtns img) ->
   snd (ImageLoad os regs img t) = [ReadInsCount_hook regs img]) /\
  (~ In (lit "Instrumentor_GetInsCount") (IMG_Rtns img) ->
   snd (ImageLoad os regs img t) = []).
Proof.
  destruct (RTN_FindByName_spec img (lit "Instrumentor_GetInsCount")) as [Hyes Hno].
  unfold ImageLoad. split; intros H.
  - rewrite (Hyes H). now destruct regs.
  - now rewrite (Hno H).
Qed.

(** X14: loading an image never takes an address out of the registered
    ranges and unloading one never brings an address in; an unload leaves
    every pair other than the image's own with the same number of
    occurrences and shortens the list by at most one. *)
Theorem ImageLoad_ImageUnload_coverage os regs img t :
  (forall addr, registered (InstrumentRanges t) addr ->
                registered (InstrumentRanges (fst (ImageLoad os regs img t))) addr) /\
  (forall addr, registered (InstrumentRanges (ImageUnload os img t)) addr ->
                registered (InstrumentRanges t) addr) /\
  (forall r, r <> (IMG_LowAddress img, IMG_HighAddress img) ->
             count_occ Range_eq_dec (InstrumentRanges (ImageUnload os img t)) r =
             count_occ Range_eq_dec (InstrumentRanges t) r) /\
  (List.length (InstrumentRanges t) <=
   S (List.length (InstrumentRanges (ImageUnload os img t))))%nat.
Proof.
  split; [ | split; [ | split ] ].
  - intros addr (lo & hi & Hin & Hb). exists lo, hi. split; [ | exact Hb ].
    destruct (IsJitImage os (IMG_Name img)) eqn:Hjit.
    + rewrite ImageLoad_jit by exact Hjit. cbn [InstrumentRanges set_InstrumentRanges].
      apply in_or_app. now left.
    + now rewrite ImageLoad_not_jit by exact Hjit.
  - intros addr (lo & hi & Hin & Hb). exists lo, hi. split; [ | exact Hb ].
    destruct (IsJitImage os (IMG_Name img)) eqn:Hjit;
      [ | unfold ImageUnload in Hin; now rewrite Hjit in Hin ].
    destruct (in_dec Range_eq_dec (IMG_LowAddress img, IMG_HighAddress img)
                (InstrumentRanges t)) as [Hreg | Hnreg].
    + destruct (ImageUnload_registered os img t Hjit Hreg)
        as (pre & post & Heq & _ & Hun).
      rewrite Hun in Hin. cbn [InstrumentRanges set_InstrumentRanges] in Hin.
      rewrite Heq. apply in_app_or in Hin. apply in_or_app.
      destruct Hin as [Hin | Hin]; [ now left | right; now right ].
    + now rewrite (ImageUnload_unregistered os img t Hnreg) in Hin.
  - intros r Hr.
    destruct (IsJitImage os (IMG_Name img)) eqn:Hjit;
      [ | unfold ImageUnload; now rewrite Hjit ].
    destruct (in_dec Range_eq_dec (IMG_LowAddress img, IMG_HighAddress img)
                (InstrumentRanges t)) as [Hreg | Hnreg].
    + destruct (ImageUnload_registered os img t Hjit Hreg)
        as (pre & post & Heq & _ & Hun).
      rewrite Hun, Heq. cbn [InstrumentRanges set_InstrumentRanges].
      rewrite !count_occ_app, count_occ_cons_neq by congruence. reflexivity.
    + now rewrite (ImageUnload_unregistered os img t Hnreg).
  - destruct (IsJitImage os (IMG_Name img)) eqn:Hjit;
      [ | unfold ImageUnload; rewrite Hjit; lia ].
    destruct (in_dec Range_eq_dec (IMG_LowAddress img, IMG_HighAddress img)
                (InstrumentRanges t)) as [Hreg | Hnreg].
    + destruct (ImageUnload_registered os img t Hjit Hreg)
        as (pre & post & Heq & _ & Hun).
      rewrite Hun, Heq. cbn [InstrumentRanges set_InstrumentRanges].
      rewrite !length_app. cbn [List.length]. lia.
    + rewrite (ImageUnload_unregistered os img t Hnreg). lia.
Qed.

End ImageCallbacks.

(** ** The exits of [main] *)

Section MainExits.

Context {REG : Type}.
Variable REG_valid : REG -> bool.


End MainExits.

(** ** Reading the report back *)

Lemma parse_decimal_decimal (n : Z) : 0 <= n -> parse_decimal (decimal n) = Some n.
Proof.
  intros Hn. unfold parse_decimal, decimal, lit.
  rewrite string_of_list_ascii_of_string, NilZero.usu.
  - cbn [option_map]. rewrite DecimalN.Unsigned.of_to. now rewrite Z2N.id.
  - destruct (Z.to_N n) as [| p]; [ discriminate | ].
    apply DecimalPos.Unsigned.to_uint_nonnil.
Qed.

(** X16: the report tells the total: the digits [Fini] writes between the
    text and the end of the line read back as [TotalCount], so two runs
    with different totals print different reports. *)
Theorem Fini_report_reads_back (t t' : Tool) :
  0 <= TotalCount t -> 0 <= TotalCount t' ->
  parse_decimal (decimal (TotalCount t)) = Some (TotalCount t) /\
  (Fini false t = Fini false t' -> TotalCount t = TotalCount t').
Proof.
  intros Ht Ht'. split; [ now apply parse_decimal_decimal | ].
  unfold Fini. cbn [negb]. intros Heq.
  apply app_inv_head in Heq. apply app_inv_tail in Heq.
  apply (f_equal parse_decimal) in Heq.
  rewrite !parse_decimal_decimal in Heq by assumption. congruence.
Qed.

(** ** Running a whole trace *)

Section TraceExecution.

Context {REG : Type}.
Variable REG_eq_dec : forall r r' : REG, {r = r'} + {r <> r'}.
Implicit Types (regs : @ToolRegs REG) (ctxt : @CONTEXT REG) (t : Tool).




End TraceExecution.

(** ** Undoing a load *)

(** X18: when the pair of an image that passes the heuristic is not yet
    registered, loading and then unloading the image gives back the very
    same tool state, the ranges in their original order. *)
Theorem ImageLoad_ImageUnload_exact {REG : Type} (os : Platform)
  (regs : @ToolRegs REG) (img : IMG) (t : Tool) :
  IsJitImage os (IMG_Name img) = true ->
  ~ In (IMG_LowAddress img, IMG_HighAddress img) (InstrumentRanges t) ->
  ImageUnload os img (fst (ImageLoad os regs img t)) = t.
Proof.
  intros Hjit Hnin. rewrite ImageLoad_jit by exact Hjit.
  set (pair := (IMG_LowAddress img, IMG_HighAddress img)) in *.
  set (loaded := set_InstrumentRanges t (InstrumentRanges t ++ [pair])).
  assert (Hin : In pair (InstrumentRanges loaded)).
  { unfold loaded. cbn. apply in_or_app. right. now left. }
  destruct (ImageUnload_registered os img loaded Hjit Hin)
    as (pre & post & Heq & Hpre & ->).
  fold pair in Heq, Hpre. unfold loaded in *.
  cbn [InstrumentRanges set_InstrumentRanges] in Heq.
  assert (Hsplit : pre = InstrumentRanges t /\ post = []).
  { clear - Heq Hnin Hpre. revert pre Heq Hpre.
    induction (InstrumentRanges t) as [| r l IH]; intros pre Heq Hpre.
    - destruct pre as [| p pre]; cbn in Heq.
      + injection Heq as <-. now split.
      + injection Heq as _ Heq. destruct pre; discriminate.
    - destruct pre as [| p pre]; cbn in Heq.
      + injection Heq as -> _. destruct Hnin. now left.
      + injection Heq as <- Heq.
        destruct (IH (fun H => Hnin (or_intror H)) pre Heq
                    (fun H => Hpre (or_intror H))) as [-> ->].
        now split. }
  destruct Hsplit as [-> ->]. rewrite app_nil_r.
  destruct t; reflexivity.
Qed.

(** * Further concrete runs *)

Lemma is_UINT32_examples :
  is_UINT32 4294967295 /\ is_UINT32 3 /\ is_UINT32 5 /\ is_UINT32 7 /\
  Forall is_UINT32 wrapping_counts.
Proof.
  assert (H : forall x, 0 <= x < 4294967296 -> is_UINT32 x)
    by (intros x Hx; unfold is_UINT32; now rewrite UINT32_modulus_eq).
  repeat split; try (apply H; lia).
  repeat constructor; apply H; lia.
Qed.

Lemma count_blocks_is_64bit_sum_witness :
  IA32.ReadInsCount (fst (count_blocks (4294967295, 3) wrapping_counts))
                    (snd (count_blocks (4294967295, 3) wrapping_counts)) =
  (IA32.ReadInsCount 4294967295 3 + sum wrapping_counts) mod 2 ^ 64.
Proof.
  destruct is_UINT32_examples as (H1 & H2 & _ & _ & H3).
  exact (proj2 (proj2 (count_blocks_is_64bit_sum 4294967295 3 wrapping_counts
                         H1 H2 H3))).
Defined.

Lemma count_blocks_agrees_with_DoCount_witness :
  IA32.ReadInsCount (fst (count_blocks (4294967295, 3) wrapping_counts))
                    (snd (count_blocks (4294967295, 3) wrapping_counts)) =
  IA32E.ReadInsCount
    (DoCount_blocks (IA32.ReadInsCount 4294967295 3) wrapping_counts).
Proof.
  destruct is_UINT32_examples as (H1 & H2 & _ & _ & H3).
  exact (count_blocks_agrees_with_DoCount 4294967295 3 wrapping_counts H1 H2 H3).
Defined.

Lemma ReadInsCount_halves_witness :
  (IA32.ReadInsCount 5 7 mod 2 ^ 32 = 5 /\ IA32.ReadInsCount 5 7 / 2 ^ 32 = 7) /\
  IA32.ReadInsCount (30064771077 mod 2 ^ 32) (30064771077 / 2 ^ 32) = 30064771077.
Proof.
  destruct is_UINT32_examples as (_ & _ & H5 & H7 & _).
  split.
  - exact (proj1 (ReadInsCount_halves 5 7 0) H5 H7).
  - apply (proj2 (ReadInsCount_halves 0 0 30064771077)).
    unfold is_UINT64. rewrite UINT64_modulus_eq. lia.
Defined.

Lemma ThreadStart_resets_count_witness :
  thread_count (Regs32 0%nat 1%nat)
    (ThreadStart Nat.eq_dec (Regs32 0%nat 1%nat) halves_context) = 0 /\
  PIN_GetContextReg (ThreadStart Nat.eq_dec (Regs32 0%nat 1%nat) halves_context)
    2%nat = PIN_GetContextReg halves_context 2%nat.
Proof.
  pose proof (ThreadStart_resets_count Nat.eq_dec (Regs32 0%nat 1%nat)
                halves_context) as (Hzero & _ & Hframe).
  split; [ exact Hzero | ].
  apply Hframe. cbn. intros [H | H]; discriminate.
Defined.

Lemma halves_context_ok :
  ToolRegs_distinct (Regs32 0%nat 1%nat) /\
  CONTEXT_ok (Regs32 0%nat 1%nat) halves_context /\
  Forall (BBL_ok (Regs32 0%nat 1%nat)) two_bbls.
Proof.
  destruct is_UINT32_examples as (H1 & H2 & _ & _ & _).
  split; [ discriminate | split ].
  - split; [ exact H1 | exact H2 ].
  - apply Forall_cons; [ | apply Forall_cons; [ | apply Forall_nil ] ];
      cbn; unfold is_UINT32; rewrite UINT32_modulus_eq; lia.
Qed.

Lemma exec_bbl_adds_NumIns_witness :
  thread_count (Regs32 0%nat 1%nat)
    (exec_bbl Nat.eq_dec (Regs32 0%nat 1%nat) halves_context
       {| BBL_Address := 5000; BBL_NumIns := 4 |}) =
  (thread_count (Regs32 0%nat 1%nat) halves_context + 4) mod 2 ^ 64.
Proof.
  destruct halves_context_ok as (Hd & Hc & Hb).
  apply Forall_inv in Hb.
  exact (proj1 (exec_bbl_adds_NumIns Nat.eq_dec (Regs32 0%nat 1%nat) halves_context
                  {| BBL_Address := 5000; BBL_NumIns := 4 |} Hd Hc Hb)).
Defined.

Lemma thread_life_adds_instructions_witness :
  TotalCount
    (ThreadFini (Regs32 0%nat 1%nat) 1
       (exec_bbls Nat.eq_dec (Regs32 0%nat 1%nat) two_bbls
          (ThreadStart Nat.eq_dec (Regs32 0%nat 1%nat) halves_context))
       initial_Tool) =
  (TotalCount initial_Tool + sum (map BBL_NumIns two_bbls)) mod 2 ^ 64.
Proof.
  destruct halves_context_ok as (Hd & _ & Hb).
  exact (thread_life_adds_instructions Nat.eq_dec (Regs32 0%nat 1%nat)
           halves_context two_bbls 1 initial_Tool Hd Hb).
Defined.

Lemma Trace_insertions_well_formed_witness :
  exists f' args' post',
    [BBL_InsertThenCall {| BBL_Address := 5000; BBL_NumIns := 4 |} IPOINT_BEFORE
       AFUN_DoCountHigh
       [IARG_FAST_ANALYSIS_CALL; IARG_REG_VALUE 1%nat; IARG_RETURN_REGS 1%nat]] =
    BBL_InsertThenCall {| BBL_Address := 5000; BBL_NumIns := 4 |} IPOINT_BEFORE
      f' args' :: post'.
Proof.
  apply (proj2 (Trace_insertions_well_formed (Regs32 0%nat 1%nat)
                  {| TRACE_Address := 5000;
                     TRACE_Bbls := [{| BBL_Address := 5000; BBL_NumIns := 4 |}] |}
                  loaded_twice)
           [BBL_InsertCall {| BBL_Address := 5000; BBL_NumIns := 4 |} IPOINT_BEFORE
              AFUN_DoCountLow
              [IARG_FAST_ANALYSIS_CALL; IARG_REG_VALUE 0%nat; IARG_ADDRINT 4;
               IARG_RETURN_REGS 0%nat]]
           _ _ IPOINT_BEFORE AFUN_OverflowedLow
           [IARG_FAST_ANALYSIS_CALL; IARG_REG_VALUE 0%nat; IARG_ADDRINT 4]).
  reflexivity.
Defined.

Lemma session_history : history [] session [libclrjit].
Proof.
  unfold session.
  apply history_load, history_load, history_trace, history_thread.
  apply (history_unload [libclrjit] [] libcoreclr). apply history_done.
Qed.

Lemma ranges_reflect_loaded_jit_images_witness :
  Permutation
    (InstrumentRanges
       (run TARGET_LINUX (Regs32 0%nat 1%nat) session initial_Tool))
    (jit_ranges TARGET_LINUX [libclrjit]).
Proof.
  exact (ranges_reflect_loaded_jit_images TARGET_LINUX (Regs32 0%nat 1%nat)
           session [libclrjit] session_history).
Defined.

Lemma Trace_instruments_loaded_jit_code_witness :
  Trace (Regs32 0%nat 1%nat) jit_trace
    (run TARGET_LINUX (Regs32 0%nat 1%nat) session initial_Tool) =
  flat_map (instrument_bbl (Regs32 0%nat 1%nat)) (TRACE_Bbls jit_trace).
Proof.
  apply (proj1 (Trace_instruments_loaded_jit_code TARGET_LINUX (Regs32 0%nat 1%nat)
                  session [libclrjit] jit_trace session_history)).
  exists libclrjit. split; [ now left | ].
  split; [ reflexivity | cbn; lia ].
Defined.

Lemma IsJitImage_ignores_directory_witness :
  IsJitImage TARGET_LINUX
    (lit "/opt/clrjit" ++ pathSep TARGET_LINUX ++ lit "libcoreclr.so") =
  IsJitImage TARGET_LINUX (lit "libcoreclr.so").
Proof.
  apply (IsJitImage_ignores_directory TARGET_LINUX (lit "/opt/clrjit")
           (lit "libcoreclr.so")).
  intros H. apply contains_find_first in H. apply H. reflexivity.
Defined.

Lemma IsJitImage_short_basename_witness :
  IsJitImage TARGET_WINDOWS (lit "C:\clrjit\") = false.
Proof.
  apply (IsJitImage_short_basename TARGET_WINDOWS (lit "C:\clrjit\") []).
  - split.
    + right. exists (lit "C:\clrjit"). reflexivity.
    + intros H. apply contains_find_first in H. apply H. reflexivity.
  - cbn. lia.
Defined.

Lemma ImageLoad_hooks_GetInsCount_witness :
  snd (ImageLoad TARGET_LINUX (Regs32 0%nat 1%nat) libcoreclr initial_Tool) =
    [ReadInsCount_hook (Regs32 0%nat 1%nat) libcoreclr] /\
  snd (ImageLoad TARGET_LINUX (Regs32 0%nat 1%nat) libclrjit initial_Tool) = [].
Proof.
  split.
  - apply (proj1 (ImageLoad_hooks_GetInsCount TARGET_LINUX (Regs32 0%nat 1%nat)
                    libcoreclr initial_Tool)).
    right. left. reflexivity.
  - apply (proj2 (ImageLoad_hooks_GetInsCount TARGET_LINUX (Regs32 0%nat 1%nat)
                    libclrjit initial_Tool)).
    cbn. intros [H | [H | []]]; discriminate.
Defined.

Lemma ImageLoad_ImageUnload_coverage_witness :
  registered
    (InstrumentRanges
       (fst (ImageLoad TARGET_LINUX (Regs64 tt) libcoreclr loaded_twice))) 5000 /\
  count_occ Range_eq_dec
    (InstrumentRanges (ImageUnload TARGET_LINUX libclrjit loaded_twice)) (1, 2) =
  count_occ Range_eq_dec (InstrumentRanges loaded_twice) (1, 2).
Proof.
  pose proof (ImageLoad_ImageUnload_coverage TARGET_LINUX (Regs64 tt) libcoreclr
                loaded_twice) as (Hload & _).
  pose proof (ImageLoad_ImageUnload_coverage TARGET_LINUX (Regs64 tt) libclrjit
                loaded_twice) as (_ & _ & Hcount & _).
  split.
  - apply Hload. exists 4096, 8192. split; [ now left | lia ].
  - apply Hcount. discriminate.
Defined.


Lemma Fini_report_reads_back_witness :
  parse_decimal (decimal (TotalCount loaded_twice)) = Some (TotalCount loaded_twice).
Proof.
  apply (proj1 (Fini_report_reads_back loaded_twice after_full_thread
                  ltac:(vm_compute; congruence) ltac:(vm_compute; congruence))).
Defined.


Lemma ImageLoad_ImageUnload_exact_witness :
  ImageUnload TARGET_LINUX libclrjit
    (fst (ImageLoad TARGET_LINUX (Regs64 tt) libclrjit initial_Tool)) =
  initial_Tool.
Proof.
  apply (ImageLoad_ImageUnload_exact TARGET_LINUX (Regs64 tt) libclrjit initial_Tool).
  - reflexivity.
  - intros [].
Defined.
